(** * Toggl integration: report assembly and timer reconciliation

    A shallow embedding of [src/lib/toggl/ApiManager.ts] (the [TogglAPI]
    wrapper and the [TogglService] built on top of it) together with the
    properties of the natural-language specification that concern them.

    Conventions of the embedding:
    - JavaScript numbers that hold identifiers, durations and epoch times are
      integers far below 2^53, so they are modelled by [Z];
    - a value that may be [null] or [undefined] is an [option]; the source
      tests such values with the loose operators [== null], [!= null],
      [!= undefined] and with truthiness, none of which tells [null] from
      [undefined] (the one strict test, in the preload callback, has a type
      of its own, [JsPid]);
    - a promise is modelled by the way it settles ([settled]); code that runs
      after an [await] is a function of that outcome;
    - observable side effects (console, notices, status bar, stores, remote
      calls, interval timers) are appended to a chronological [trace]. *)

From Stdlib Require Import ZArith List String Ascii Bool Lia Permutation.
From Stdlib Require Import DecimalString.
From Stdlib Require DecimalPos DecimalZ.
Import ListNotations.

Open Scope string_scope.
Open Scope list_scope.
Open Scope Z_scope.

(** ** JavaScript helpers *)

Module Js.

(** How a promise settles. *)
Inductive settled (A : Type) : Type :=
| Fulfilled (a : A)
| Rejected (err : string).
Arguments Fulfilled {A} a.
Arguments Rejected {A} err.

Section Arrays.
Context {A : Type}.

(** [Array.prototype.length]. *)
Definition length (l : list A) : Z := Z.of_nat (List.length l).

(** [Array.prototype.findIndex]: index of the first element satisfying
    the callback, [-1] when there is none. *)
Fixpoint findIndex_from (p : A -> bool) (i : Z) (l : list A) : Z :=
  match l with
  | [] => -1
  | x :: t => if p x then i else findIndex_from p (i + 1) t
  end.

Definition findIndex (p : A -> bool) (l : list A) : Z :=
  findIndex_from p 0 l.

(** [Array.prototype.filter] with the three-argument callback
    [(el, index, self)]. *)
Fixpoint filter_from (p : A -> Z -> list A -> bool) (self : list A)
         (i : Z) (l : list A) : list A :=
  match l with
  | [] => []
  | x :: t =>
      if p x i self then x :: filter_from p self (i + 1) t
      else filter_from p self (i + 1) t
  end.

Definition filter (p : A -> Z -> list A -> bool) (l : list A) : list A :=
  filter_from p l 0 l.

(** [Array.prototype.reduce] with an initial value. *)
Definition reduce {B : Type} (f : B -> A -> B) (init : B) (l : list A) : B :=
  fold_left f l init.

(** [Array.prototype.indexOf] for a type with a strict equality test. *)
Definition indexOf (eqb : A -> A -> bool) (x : A) (l : list A) : Z :=
  findIndex (fun y => eqb y x) l.

End Arrays.

(** Truthiness of a possibly absent string: [undefined], [null] and the
    empty string are falsy. *)
Definition truthy_string (s : option string) : bool :=
  match s with
  | Some (String _ _) => true
  | _ => false
  end.

(** [a || b] on possibly absent strings, with a string default. *)
Definition or_string (s : option string) (d : string) : string :=
  match s with
  | Some (String c r) => String c r
  | _ => d
  end.

(** Loose equality of two possibly absent values of the same primitive
    type: [null == undefined], and present values compare by [eqb]. *)
Definition loose_eq {A : Type} (eqb : A -> A -> bool) (x y : option A) : bool :=
  match x, y with
  | None, None => true
  | Some a, Some b => eqb a b
  | _, _ => false
  end.

(** [Math.round(ms / 1000)] for an integral number of milliseconds:
    rounding to the nearest integer, halves towards plus infinity. *)
Definition round_div_1000 (ms : Z) : Z := (ms + 500) / 1000.

(** [Math.floor(n / 60)] for an integer [n]. *)
Definition floor_div_60 (n : Z) : Z := n / 60.

(** Decimal rendering of an integer in a template literal. *)
Definition number_to_string (n : Z) : string :=
  NilZero.string_of_int (Z.to_int n).

(** [String.prototype.slice(0, e)]: a negative end counts from the end of
    the string. *)
Definition slice0 (s : string) (e : Z) : string :=
  let len := Z.of_nat (String.length s) in
  let e' := if e <? 0 then Z.max (len + e) 0 else Z.min e len in
  String.substring 0 (Z.to_nat e') s.

End Js.

Import Js.

(** [l1] is obtained from [l2] by deleting elements, order kept. *)
Inductive subseq {A : Type} : list A -> list A -> Prop :=
| subseq_nil : subseq [] []
| subseq_skip x l1 l2 : subseq l1 l2 -> subseq l1 (x :: l2)
| subseq_keep x l1 l2 : subseq l1 l2 -> subseq (x :: l1) (x :: l2).

(** ** The workspaces the wrapper hands out *)

Module TogglWorkspace.
(** The object built by [getWorkspaces]. *)
Record t : Type := mk {
  id : string;
  name : string
}.
End TogglWorkspace.

(** ** The report side: [TogglAPI.getDetailedReport] *)

Module TogglAPI.

(** One record of a detailed report (the fields of [Detailed] the wrapper
    reads, and a description as payload). *)
Record Detailed : Type := mkDetailed {
  id : Z;
  dur : Z;
  d_description : string
}.

Record Report : Type := mkReport {
  total_count : Z;
  total_grand : Z;
  data : list Detailed
}.

(** The callback of the deduplicating [filter]:
    [index === self.findIndex((el2) => el2.id === el.id)]. *)
Definition is_first_of_its_id (el : Detailed) (index : Z) (self : list Detailed) : bool :=
  index =? findIndex (fun el2 => id el2 =? id el) self.

(** The body of [getDetailedReport] after the queued [detailsAll] call has
    delivered the combined pages. *)
Definition assemble (fetched : list Detailed) : Report :=
  let completeReport := mkReport 0 0 [] in
  let completeReport :=
    mkReport (total_count completeReport) (total_grand completeReport) fetched in
  let completeReport :=
    mkReport (Js.length (data completeReport)) (total_grand completeReport)
             (data completeReport) in
  let completeReport :=
    mkReport (total_count completeReport)
             (reduce (fun acc curr => acc + dur curr) 0 (data completeReport))
             (data completeReport) in
  let completeReport :=
    mkReport (total_count completeReport) (total_grand completeReport)
             (Js.filter is_first_of_its_id (data completeReport)) in
  completeReport.

(** [getDetailedReport]: the queued fetch either rejects, and the rejection
    propagates to the caller, or delivers the records to assemble. *)
Definition getDetailedReport (fetch : settled (list Detailed)) : settled Report :=
  match fetch with
  | Rejected e => Rejected e
  | Fulfilled fetched => Fulfilled (assemble fetched)
  end.

(** Sum of the durations of a sequence of records. *)
Definition sum_dur (l : list Detailed) : Z :=
  fold_right (fun r acc => dur r + acc) 0 l.

(** Reference deduplication: walk the records once, remembering the ids
    of the records walked so far. *)
Fixpoint first_by_id (seen : list Z) (l : list Detailed) : list Detailed :=
  match l with
  | [] => []
  | x :: t =>
      if existsb (Z.eqb (id x)) seen then first_by_id (seen ++ [id x]) t
      else x :: first_by_id (seen ++ [id x]) t
  end.

(** The ids of a sequence in the order in which they first appear. *)
Fixpoint first_ids (seen : list Z) (ids : list Z) : list Z :=
  match ids with
  | [] => []
  | i :: t =>
      if existsb (Z.eqb i) seen then first_ids (seen ++ [i]) t
      else i :: first_ids (seen ++ [i]) t
  end.

(** [TogglAPI.setToken], an async function: how the promise it returns
    settles, given how the probe [testConnection] settles. *)
Definition testConnection (workspaces_list : settled unit) : settled unit :=
  workspaces_list.

Definition setToken (workspaces_list : settled unit) : settled unit :=
  match testConnection workspaces_list with
  | Fulfilled _ => Fulfilled tt
  | Rejected _ => Rejected "Cannot connect to Toggl API."
  end.

(** The three pages of the specification's example, in fetch order. *)
Definition example_pages : list Detailed :=
  [mkDetailed 1 60 "write"; mkDetailed 2 120 "review"] ++
  [mkDetailed 2 120 "review"; mkDetailed 3 30 "mail"] ++
  [mkDetailed 4 45 "plan"].

(** One element of the response of [workspaces.list] (the fields of
    [w: any] that [getWorkspaces] reads). *)
Record RawWorkspace : Type := mkRawWorkspace {
  w_id : Z;
  w_name : string
}.

(** [getWorkspaces]: the list request is awaited twice, one call after the
    other; the workspaces are built from the first response, the numeric id
    rendered by [toString]. *)
Definition getWorkspaces (first second : settled (list RawWorkspace))
  : settled (list TogglWorkspace.t) :=
  match first with
  | Rejected e => Rejected e
  | Fulfilled response =>
      match second with
      | Rejected e => Rejected e
      | Fulfilled _ =>
          Fulfilled
            (map (fun w => TogglWorkspace.mk (number_to_string (w_id w)) (w_name w))
                 response)
      end
  end.

End TogglAPI.

(** ** The time entries the service publishes *)

Module TimeEntry.
(** The object built by [responseToTimeEntry]. *)
Record t : Type := mk {
  description : option string;
  pid : option Z;
  id : Z;
  duration : Z;
  start : string;
  end_ : option string;
  project : string;
  project_hex_color : string;
  tags : option (list string)
}.
End TimeEntry.

(** ** The service: [TogglService] *)

Module TogglService.

Inductive ApiStatus : Type :=
| AVAILABLE
| NO_TOKEN
| UNREACHABLE
| UNTESTED.

(** The fields of a cached project that the service reads. *)
Record Project : Type := mkProject {
  p_name : string;
  p_id : Z;
  p_hex_color : string
}.

(** The current-timer response of the remote API ([curr: any] in the
    source), which is also what [_currentTimeEntry] holds between polls. *)
Record TimerResponse : Type := mkTimerResponse {
  id : Z;
  wid : Z;
  pid : option Z;
  description : option string;
  start : string;
  stop : option string;
  end_ : option string;
  duration : Z;
  tags : option (list string)
}.

(** Calls made on the remote API. *)
Inductive RemoteCall : Type :=
| WorkspacesList
| WorkspacesProjects (workspace : Z)
| WorkspacesTags (workspace : Z)
| ReportsSummaryToday (workspace : Z)
| TimeEntriesCurrent
| TimeEntriesStop (id : Z).

(** Observable effects, in the order they happen. *)
Inductive Effect : Type :=
| ConsoleError (msg : string)
| ConsoleDebug (msg : string)
| NoticeShown (msg : string)
| StatusBarSetText (text : string)
| CurrentTimerSet (val : option TimeEntry.t)
| ApiStatusStoreSet (status : ApiStatus)
| Remote (call : RemoteCall)
| ClearInterval (handle : option nat)
| SetInterval (handle : nat)
| RegisterInterval (handle : nat)
| UnhandledRejection (reason : string).

(** The fields of a [TogglService] instance, the two plugin settings it
    reads, the next handle [window.setInterval] will return, and the trace
    of effects so far. *)
Record Service : Type := mkService {
  _projects : list Project;
  _currentTimerInterval : option nat;
  _currentTimeEntry : option TimerResponse;
  _ApiAvailable : ApiStatus;
  settings_workspace_id : Z;
  settings_charLimitStatusBar : Z;
  next_handle : nat;
  trace : list Effect
}.

Definition log (e : Effect) (s : Service) : Service :=
  mkService (_projects s) (_currentTimerInterval s) (_currentTimeEntry s)
            (_ApiAvailable s) (settings_workspace_id s)
            (settings_charLimitStatusBar s) (next_handle s) (trace s ++ [e]).

Definition set_currentTimeEntry (v : option TimerResponse) (s : Service) : Service :=
  mkService (_projects s) (_currentTimerInterval s) v
            (_ApiAvailable s) (settings_workspace_id s)
            (settings_charLimitStatusBar s) (next_handle s) (trace s).

Definition set_ApiAvailable (v : ApiStatus) (s : Service) : Service :=
  mkService (_projects s) (_currentTimerInterval s) (_currentTimeEntry s)
            v (settings_workspace_id s)
            (settings_charLimitStatusBar s) (next_handle s) (trace s).

(** [window.setInterval]: hands out a fresh handle. *)
Definition window_setInterval (s : Service) : nat * Service :=
  let h := next_handle s in
  (h, log (SetInterval h)
        (mkService (_projects s) (_currentTimerInterval s) (_currentTimeEntry s)
                   (_ApiAvailable s) (settings_workspace_id s)
                   (settings_charLimitStatusBar s) (S h) (trace s))).

Definition set_currentTimerInterval (v : option nat) (s : Service) : Service :=
  mkService (_projects s) v (_currentTimeEntry s)
            (_ApiAvailable s) (settings_workspace_id s)
            (settings_charLimitStatusBar s) (next_handle s) (trace s).

Definition ApiStatus_eqb (a b : ApiStatus) : bool :=
  match a, b with
  | AVAILABLE, AVAILABLE | NO_TOKEN, NO_TOKEN
  | UNREACHABLE, UNREACHABLE | UNTESTED, UNTESTED => true
  | _, _ => false
  end.

(** [get isApiAvailable]. *)
Definition isApiAvailable (s : Service) : bool :=
  if ApiStatus_eqb (_ApiAvailable s) AVAILABLE then true else false.

(** [get workspaceId]. The setting is the decimal rendering of the numeric
    workspace id ([getWorkspaces] builds it with [toString]); the only use
    is the loose comparison with the numeric [wid], which converts it back
    to that number. *)
Definition workspaceId (s : Service) : Z := settings_workspace_id s.

(** [get cachedProjects]. *)
Definition cachedProjects (s : Service) : list Project := _projects s.

(** *** Comparing tag lists: [isTagsChanged] *)

(** The [for ... of] loop over the old tags. *)
Fixpoint some_tag_missing (old_tags new_tags : list string) : bool :=
  match old_tags with
  | [] => false
  | tag :: rest =>
      if indexOf String.eqb tag new_tags <? 0 then true
      else some_tag_missing rest new_tags
  end.

Definition isTagsChanged (old_tags new_tags : option (list string)) : bool :=
  let old_tags := match old_tags with Some l => l | None => [] end in
  let new_tags := match new_tags with Some l => l | None => [] end in
  if negb (Js.length old_tags =? Js.length new_tags) then true
  else some_tag_missing old_tags new_tags.

(** *** Classifying a poll result *)

(** The four cases the source distinguishes when it raises [changed], named
    as in the specification, and the case where [changed] stays false. *)
Inductive ChangeKind : Type :=
| Unchanged
| Started    (* Case 1: no timer -> active timer *)
| Switched   (* Case 2: old timer -> new timer (new ID) *)
| Updated    (* Case 3: timer details update (same ID) *)
| Stopped.   (* Case 4: active timer -> no timer *)

(** The condition of case 3. *)
Definition details_differ (prev curr : TimerResponse) : bool :=
  negb (loose_eq String.eqb (description prev) (description curr))
  || negb (loose_eq Z.eqb (pid prev) (pid curr))
  || negb (String.eqb (start prev) (start curr))
  || isTagsChanged (tags prev) (tags curr).

(** The nested conditionals of [updateCurrentTimer] that decide [changed]. *)
Definition classify (prev curr : option TimerResponse) : ChangeKind :=
  match curr with
  | Some c =>
      match prev with
      | None => Started
      | Some p =>
          if negb (id p =? id c) then Switched
          else if details_differ p c then Updated
          else Unchanged
      end
  | None =>
      match prev with
      | Some _ => Stopped
      | None => Unchanged
      end
  end.

(** The value of the local [changed] once the conditionals have run. *)
Definition changed (k : ChangeKind) : bool :=
  match k with
  | Unchanged => false
  | _ => true
  end.

(** The [console.debug] line of each case. *)
Definition debug_line (k : ChangeKind) : list Effect :=
  match k with
  | Unchanged => []
  | Started => [ConsoleDebug "Case 1: no timer -> active timer"]
  | Switched => [ConsoleDebug "Case 2: old timer -> new timer (new ID)"]
  | Updated => [ConsoleDebug "Case 3: timer details update (same ID)"]
  | Stopped => [ConsoleDebug "Case 4: active timer -> no timer"]
  end.

(** "Drop timers from different workspaces": the conditional assignment
    [curr = null] of [updateCurrentTimer]. *)
Definition drop_other_workspace (workspace : Z) (curr : option TimerResponse)
  : option TimerResponse :=
  match curr with
  | Some c =>
      if negb (wid c =? workspace) && (match pid c with Some _ => true | None => false end)
      then None
      else Some c
  | None => None
  end.

(** *** Status bar *)

(** [getTimerDuration], with the clock reading [new Date().getTime()] as
    an argument. *)
Definition getTimerDuration (now_ms : Z) (timeEntry : TimerResponse) : Z :=
  if truthy_string (stop timeEntry) then duration timeEntry
  else
    let epoch_time := round_div_1000 now_ms in
    epoch_time + duration timeEntry.

(** [updateStatusBarText]. The source measures and cuts the title in
    UTF-16 code units ([title.length], [slice]); the model measures and
    cuts it in characters of the string, which are those code units when
    the text is ASCII ([ascii_only]). What is proved about the length of
    the title is stated for ASCII descriptions only. *)
Definition updateStatusBarText (now_ms : Z) (s : Service) : Service :=
  let timer_msg :=
    match _currentTimeEntry s with
    | None => "-"
    | Some e =>
        let title := or_string (description e) "No description" in
        let title :=
          if Z.of_nat (String.length title) >? settings_charLimitStatusBar s
          then (slice0 title (settings_charLimitStatusBar s - 3) ++ "...")%string
          else title in
        let duration := getTimerDuration now_ms e in
        let minutes := floor_div_60 duration in
        let time_string :=
          (number_to_string minutes ++ " minute"
             ++ (if negb (Z.eqb minutes 1) then "s" else ""))%string in
        (title ++ " (" ++ time_string ++ ")")%string
    end in
  log (StatusBarSetText ("Timer: " ++ timer_msg)%string) s.

(** [responseToTimeEntry]. *)
Definition responseToTimeEntry (s : Service) (response : TimerResponse) : TimeEntry.t :=
  let project :=
    find (fun p => loose_eq Z.eqb (Some (p_id p)) (pid response)) (cachedProjects s) in
  TimeEntry.mk
    (description response)
    (pid response)
    (id response)
    (duration response)
    (start response)
    (end_ response)
    (match pid response with
     | Some _ => match project with Some p => p_name p | None => "(Unknown)" end
     | None => "(No project)"
     end)
    (match project with Some p => p_hex_color p | None => "var(--text-muted)" end)
    (tags response).

(** [noticeAPINotAvailable]. *)
Definition noticeAPINotAvailable (s : Service) : Service :=
  match _ApiAvailable s with
  | NO_TOKEN => log (NoticeShown "No Toggl Track API token is set.") s
  | UNREACHABLE =>
      log (NoticeShown "The Toggl Track API is unreachable. Either the Toggl services are down, or your API token is incorrect.") s
  | _ => s
  end.

(** [executeIfAPIAvailable]. *)
Definition executeIfAPIAvailable (func : Service -> Service) (s : Service) : Service :=
  if isApiAvailable s then func s else noticeAPINotAvailable s.

(** *** One reconciliation pass: [updateCurrentTimer] *)

(** The pass up to its [await]: either it returns at once (the API is not
    available), or it remembers [prev] and issues the fetch. *)
Definition updateCurrentTimer_call (s : Service)
  : Service * option (option TimerResponse) :=
  if negb (isApiAvailable s) then (s, None)
  else
    let prev := _currentTimeEntry s in
    (log (Remote TimeEntriesCurrent) s, Some prev).

(** The pass after the fetch has settled; [s] is the service as it is at
    that moment, [prev] what the pass remembered before the fetch. *)
Definition updateCurrentTimer_resume (now_ms : Z) (prev : option TimerResponse)
           (fetch : settled (option TimerResponse)) (s : Service) : Service :=
  match fetch with
  | Rejected err =>
      log (ConsoleError err) (log (ConsoleError "Error reaching Toggl API") s)
  | Fulfilled curr =>
      let curr := drop_other_workspace (workspaceId s) curr in
      let kind := classify prev curr in
      let s := fold_left (fun s e => log e s) (debug_line kind) s in
      let s :=
        if changed kind then
          let val :=
            match curr with
            | Some c => Some (responseToTimeEntry s c)
            | None => None
            end in
          let s := log (CurrentTimerSet val) s in
          log (Remote (ReportsSummaryToday (settings_workspace_id s))) s
        else s in
      let s := set_currentTimeEntry curr s in
      updateStatusBarText now_ms s
  end.

(** A pass whose fetch settles before anything else touches the service. *)
Definition poll_tick (now_ms : Z) (fetch : settled (option TimerResponse))
           (s : Service) : Service :=
  match updateCurrentTimer_call s with
  | (s1, None) => s1
  | (s1, Some prev) => updateCurrentTimer_resume now_ms prev fetch s1
  end.

(** [startTimerInterval]: one pass at once, then one per interval. *)
Definition startTimerInterval (s : Service) : Service :=
  let s := fst (updateCurrentTimer_call s) in
  let (h, s) := window_setInterval s in
  let s := set_currentTimerInterval (Some h) s in
  log (RegisterInterval h) s.

(** [_preloadWorkspaceData]: the three requests it issues. *)
Definition _preloadWorkspaceData (s : Service) : Service :=
  let s := log (Remote (WorkspacesProjects (settings_workspace_id s))) s in
  let s := log (Remote (WorkspacesTags (settings_workspace_id s))) s in
  log (Remote (ReportsSummaryToday (settings_workspace_id s))) s.

(** *** [setToken] *)

(** How a block of synchronous statements completes. *)
Inductive completion : Type :=
| Normal (s : Service)
| Throw (s : Service).

(** [try { body } catch { handler }]. *)
Definition try_catch (body : completion) (handler : Service -> Service) : Service :=
  match body with
  | Normal s => s
  | Throw s => handler s
  end.

(** The [try] block. [new TogglAPI()] only subscribes to the settings
    store. [this._apiManager.setToken(token)] calls an async function and
    is not awaited: the call creates the client, issues the probe request
    and hands back a promise, which the block drops. No statement of the
    block can throw. *)
Definition setToken_try (s : Service) : completion :=
  let s := log (Remote WorkspacesList) s in
  let s := set_ApiAvailable AVAILABLE s in
  let s := startTimerInterval s in
  let s := _preloadWorkspaceData s in
  Normal s.

(** The [catch] block. *)
Definition setToken_catch (s : Service) : Service :=
  let s := log (ConsoleError "Cannot connect to toggl API.") s in
  let s := log (StatusBarSetText "Cannot connect to Toggl API") s in
  let s := set_ApiAvailable UNREACHABLE s in
  noticeAPINotAvailable s.

Definition setToken (token : option string) (s : Service) : Service :=
  let s := log (ClearInterval (_currentTimerInterval s)) s in
  let s :=
    match token with
    | Some (String _ _) => try_catch (setToken_try s) setToken_catch
    | _ =>
        let s := log (StatusBarSetText "Open settings to add a Toggl API token.") s in
        let s := set_ApiAvailable NO_TOKEN s in
        noticeAPINotAvailable s
    end in
  log (ApiStatusStoreSet (_ApiAvailable s)) s.

(** The probe settles after [setToken] has returned. The promise of
    [TogglAPI.setToken] was dropped, so a rejection reaches no handler of
    the service and is only reported by the host. *)
Definition probe_settled (workspaces_list : settled unit) (s : Service) : Service :=
  match TogglAPI.setToken workspaces_list with
  | Fulfilled _ => s
  | Rejected reason => log (UnhandledRejection reason) s
  end.

(** *** [stopTimer] *)

Definition stopTimer (s : Service) : Service :=
  executeIfAPIAvailable
    (fun s =>
       match _currentTimeEntry s with
       | Some e => log (Remote (TimeEntriesStop (id e))) s
       | None => s
       end) s.

(** The specification's reading of "the tag sets are equal": same
    cardinality and every previous tag present in current, an absent list
    counting as empty. *)
Definition same_tag_set (old_tags new_tags : option (list string)) : Prop :=
  let old_tags := match old_tags with Some l => l | None => [] end in
  let new_tags := match new_tags with Some l => l | None => [] end in
  List.length old_tags = List.length new_tags /\
  forall tag, In tag old_tags -> In tag new_tags.

(** A service that has just been constructed, for workspace 1. *)
Definition fresh_service : Service :=
  mkService [] None None UNTESTED 1 30 1%nat [].

(** The same service once it is polling and holds no timer. *)
Definition idle_service : Service :=
  mkService [] (Some 1%nat) None AVAILABLE 1 30 2%nat [].

(** A running timer of workspace 2 that has no project. *)
Definition foreign_projectless_timer : TimerResponse :=
  mkTimerResponse 42 2 None (Some "call") "2023-11-14T22:13:20+00:00"
                  None None (-1700000000) None.

(** A running timer of workspace 2 in project 9. *)
Definition foreign_project_timer : TimerResponse :=
  mkTimerResponse 43 2 (Some 9) (Some "call") "2023-11-14T22:13:20+00:00"
                  None None (-1700000000) (Some ["a"; "b"]).

(** *** After a stop request *)

(** The continuation [.then(() => this.updateCurrentTimer())] of the stop
    request issued by [stopTimer]: it runs once the request has succeeded
    and starts a reconciliation pass; the pass is returned up to its
    [await]. A failed request reaches no handler of the service. *)
Definition stopTimer_then (stop : settled unit) (s : Service)
  : Service * option (option TimerResponse) :=
  match stop with
  | Fulfilled _ => updateCurrentTimer_call s
  | Rejected reason => (log (UnhandledRejection reason) s, None)
  end.

(** *** Preloaded projects *)

Definition set_projects (v : list Project) (s : Service) : Service :=
  mkService v (_currentTimerInterval s) (_currentTimeEntry s)
            (_ApiAvailable s) (settings_workspace_id s)
            (settings_charLimitStatusBar s) (next_handle s) (trace s).

(** The [pid] of the entry held by the [currentTimer] store. The callback
    of the preload tests it with the strict [!== undefined] and [===], so
    here [undefined] and [null] are told apart. *)
Inductive JsPid : Type :=
| PidUndefined
| PidNull
| PidNumber (n : Z).

(** The entry held by the [currentTimer] store: the three fields the
    preload callback reads or writes, and the others, which the spread
    [...entry] copies. *)
Record StoreEntry (Rest : Type) : Type := mkStoreEntry {
  se_pid : JsPid;
  se_project : string;
  se_project_hex_color : string;
  se_rest : Rest
}.
Arguments mkStoreEntry {Rest} _ _ _ _.
Arguments se_pid {Rest} _.
Arguments se_project {Rest} _.
Arguments se_project_hex_color {Rest} _.
Arguments se_rest {Rest} _.

(** [response.find((p) => p.id === entry.pid)]. *)
Definition find_project (response : list Project) (pid : JsPid) : option Project :=
  find (fun p => match pid with PidNumber n => p_id p =? n | _ => false end) response.

(** The callback given to [currentTimer.update]; [None] stands for the
    [TypeError] raised by reading [project.name] when [find] returned
    [undefined]. *)
Definition preload_update {Rest : Type} (response : list Project)
           (entry : option (StoreEntry Rest)) : option (option (StoreEntry Rest)) :=
  match entry with
  | Some e =>
      match se_pid e with
      | PidUndefined => Some (Some e)
      | _ =>
          let project := find_project response (se_pid e) in
          match project with
          | Some p =>
              Some (Some (mkStoreEntry (se_pid e) (p_name p) (p_hex_color p) (se_rest e)))
          | None => None
          end
      end
  | None => Some None
  end.

(** The continuation of [getProjects()] in [_preloadWorkspaceData], given
    the value the [currentTimer] store holds: the projects are cached, then
    the store is updated. The result is the service and the new value of
    the store; when the callback throws the store keeps its value and the
    rejection reaches no handler. *)
Definition preload_projects_then {Rest : Type} (response : list Project)
           (store : option (StoreEntry Rest)) (s : Service)
  : Service * option (StoreEntry Rest) :=
  let s := set_projects response s in
  match preload_update response store with
  | Some entry => (s, entry)
  | None => (log (UnhandledRejection "TypeError") s, store)
  end.

(** *** Reading a trace *)

(** The values published to the [currentTimer] store, in order. *)
Fixpoint published (tr : list Effect) : list (option TimeEntry.t) :=
  match tr with
  | [] => []
  | CurrentTimerSet v :: rest => v :: published rest
  | _ :: rest => published rest
  end.

(** The remote calls issued, in order. *)
Fixpoint remote_calls (tr : list Effect) : list RemoteCall :=
  match tr with
  | [] => []
  | Remote c :: rest => c :: remote_calls rest
  | _ :: rest => remote_calls rest
  end.

(** The notices shown, in order. *)
Fixpoint notices (tr : list Effect) : list string :=
  match tr with
  | [] => []
  | NoticeShown m :: rest => m :: notices rest
  | _ :: rest => notices rest
  end.

(** A string all of whose characters are ASCII (the high bit of each is
    clear). The characters of such a string are its UTF-16 code units. *)
Fixpoint ascii_only (s : string) : bool :=
  match s with
  | EmptyString => true
  | String (Ascii _ _ _ _ _ _ _ b7) rest => negb b7 && ascii_only rest
  end.

(** A timer of the configured workspace of [idle_service], in project 3. *)
Definition home_timer : TimerResponse :=
  mkTimerResponse 7 1 (Some 3) (Some "write report") "2023-11-14T22:13:20+00:00"
                  None None (-1700000000) (Some ["a"; "b"]).

End TogglService.

(** ** The request queue: [ApiQueue] *)

Module ApiQueue.

(** Modelled from the spec: the value an operation's promise settles
    with (the file [lib/toggl/ApiQueue.ts] is not among the sources). *)
Definition Outcome : Type := settled Z.

(** Modelled from the spec: what the environment does to the queue of
    section 4.1, whose file is not among the sources. A caller submits an operation
    (given by the way its promise will settle once it runs), or the promise
    of the operation in flight settles. *)
Inductive Input : Type :=
| Enqueue (operation : Outcome)
| Settle.

(** Modelled from the spec: what can be observed of the queue of section
    4.1, whose file is not among the sources. An operation begins, or the
    promise handed to its caller settles. Operations are named by their
    submission rank. *)
Inductive Event : Type :=
| Began (ticket : nat)
| Settled (ticket : nat) (outcome : Outcome).

(** Modelled from the spec: the serializing executor behind
    [this._queue.queue(...)], whose file [lib/toggl/ApiQueue.ts] is not
    among the sources. Following section 4.1, operations run one at a time
    in submission order, the next one begins when the promise of the one in
    flight settles, by success or by failure alike, and each caller gets
    the outcome of its own operation. *)
Record Queue : Type := mkQueue {
  running : option (nat * Outcome);
  waiting : list (nat * Outcome);
  next_ticket : nat;
  events : list Event
}.

(** Modelled from the spec: the missing [ApiQueue] as constructed. *)
Definition empty : Queue := mkQueue None [] 0 [].

(** Modelled from the spec: the missing [ApiQueue] begins the oldest
    waiting operation when none is in flight. *)
Definition pump (q : Queue) : Queue :=
  match running q, waiting q with
  | None, (t, o) :: rest =>
      mkQueue (Some (t, o)) rest (next_ticket q) (events q ++ [Began t])
  | _, _ => q
  end.

(** Modelled from the spec: [enqueue(operation)] of section 4.1, the
    [queue] method of the missing [ApiQueue]. *)
Definition enqueue (operation : Outcome) (q : Queue) : Queue :=
  pump (mkQueue (running q) (waiting q ++ [(next_ticket q, operation)])
                (S (next_ticket q)) (events q)).

(** Modelled from the spec: in the missing [ApiQueue], the promise of the
    operation in flight settles;
    its caller is served and the next operation may begin, whatever the
    outcome was. *)
Definition settle (q : Queue) : Queue :=
  match running q with
  | Some (t, o) =>
      pump (mkQueue None (waiting q) (next_ticket q) (events q ++ [Settled t o]))
  | None => q
  end.

(** Modelled from the spec: one input applied to the missing [ApiQueue]. *)
Definition step (q : Queue) (i : Input) : Queue :=
  match i with
  | Enqueue operation => enqueue operation q
  | Settle => settle q
  end.

(** Modelled from the spec: the missing [ApiQueue] after a sequence of
    inputs, starting empty. *)
Definition run (inputs : list Input) : Queue := fold_left step inputs empty.

(** The operations submitted by a sequence of inputs, in submission order. *)
Fixpoint submitted (inputs : list Input) : list Outcome :=
  match inputs with
  | [] => []
  | Enqueue o :: rest => o :: submitted rest
  | Settle :: rest => submitted rest
  end.

(** The tickets of the [Began] events of a log, in order. *)
Fixpoint began_tickets (log : list Event) : list nat :=
  match log with
  | [] => []
  | Began t :: rest => t :: began_tickets rest
  | Settled _ _ :: rest => began_tickets rest
  end.

(** The log of running the operations [outs] one after the other, the
    first of them holding ticket [t]. *)
Fixpoint serial (t : nat) (outs : list Outcome) : list Event :=
  match outs with
  | [] => []
  | o :: rest => Began t :: Settled t o :: serial (S t) rest
  end.

(** Consecutive tickets for a sequence of operations. *)
Fixpoint tickets (t : nat) (outs : list Outcome) : list (nat * Outcome) :=
  match outs with
  | [] => []
  | o :: rest => (t, o) :: tickets (S t) rest
  end.

(** The queue after the operations [done] have settled, while those of
    [rest] have been submitted and not settled: the first of [rest] is in
    flight and the others wait. *)
Definition after (done rest : list Outcome) : Queue :=
  match rest with
  | [] => mkQueue None [] (List.length done) (serial 0 done)
  | o :: w =>
      mkQueue (Some (List.length done, o))
              (tickets (S (List.length done)) w)
              (S (List.length done + List.length w))
              (serial 0 done ++ [Began (List.length done)])
  end.

(** A failing operation followed by a succeeding one, both submitted
    before the first settles. *)
Definition failure_then_success : list Input :=
  [Enqueue (Rejected "503"); Enqueue (Fulfilled 7); Settle; Settle].

End ApiQueue.

(** * Properties *)

(** ** Report assembly *)

Section ReportFacts.
Import TogglAPI.

(** *** Facts about the array helpers *)

Lemma findIndex_from_app_hit {A} (p : A -> bool) (pre : list A) (x : A)
      (t : list A) (i : Z) :
  0 <= i -> p x = true ->
  (i + Js.length pre =? findIndex_from p i (pre ++ x :: t))
  = forallb (fun y => negb (p y)) pre.
Proof.
  unfold Js.length.
  revert i; induction pre as [|y pre IH]; intros i Hi Hx; simpl.
  - rewrite Hx. apply Z.eqb_eq; lia.
  - destruct (p y) eqn:Hy; simpl.
    + apply Z.eqb_neq; lia.
    + rewrite <- (IH (i + 1)) by (lia || assumption).
      f_equal; lia.
Qed.

Lemma filter_from_first_by_id (pre l : list Detailed) :
  filter_from is_first_of_its_id (pre ++ l) (Js.length pre) l
  = first_by_id (map id pre) l.
Proof.
  revert pre; induction l as [|x t IH]; intros pre; simpl; [reflexivity|].
  unfold is_first_of_its_id at 1.
  pose proof (findIndex_from_app_hit (fun el2 => id el2 =? id x) pre x t 0
                ltac:(lia) (Z.eqb_refl _)) as H.
  simpl in H. unfold findIndex. rewrite H.
  assert (Hseen : forallb (fun y => negb (id y =? id x)) pre
                  = negb (existsb (Z.eqb (id x)) (map id pre))).
  { clear. induction pre as [|y pre IHp]; simpl; [reflexivity|].
    rewrite IHp, negb_orb, (Z.eqb_sym (id x) (id y)). reflexivity. }
  rewrite Hseen.
  assert (Hnext : filter_from is_first_of_its_id (pre ++ x :: t)
                              (Js.length pre + 1) t
                  = first_by_id (map id pre ++ [id x]) t).
  { specialize (IH (pre ++ [x])).
    rewrite <- app_assoc in IH. simpl in IH.
    rewrite map_app in IH. simpl in IH.
    rewrite <- IH. f_equal.
    unfold Js.length. rewrite length_app. simpl. lia. }
  rewrite Hnext.
  destruct (existsb (Z.eqb (id x)) (map id pre)); reflexivity.
Qed.

Lemma dedup_first_by_id (l : list Detailed) :
  Js.filter is_first_of_its_id l = first_by_id [] l.
Proof. exact (filter_from_first_by_id [] l). Qed.

(** *** Facts about the reference deduplication *)

Lemma existsb_eqb_In (z : Z) (seen : list Z) :
  existsb (Z.eqb z) seen = true <-> In z seen.
Proof.
  rewrite existsb_exists; split.
  - intros (y & Hy & E). apply Z.eqb_eq in E. now subst.
  - intros H. exists z. split; [assumption | apply Z.eqb_refl].
Qed.

Lemma first_by_id_In (l : list Detailed) (seen : list Z) (r : Detailed) :
  In r (first_by_id seen l) -> In r l /\ ~ In (id r) seen.
Proof.
  revert seen; induction l as [|x t IH]; intros seen; simpl; [tauto|].
  destruct (existsb (Z.eqb (id x)) seen) eqn:E.
  - intros H. apply IH in H as [H1 H2]. split; [now right|].
    intros C. apply H2, in_or_app. now left.
  - intros [<-|H].
    + split; [now left|]. intros C. apply existsb_eqb_In in C. congruence.
    + apply IH in H as [H1 H2]. split; [now right|].
      intros C. apply H2, in_or_app. now left.
Qed.

Lemma first_by_id_NoDup (l : list Detailed) (seen : list Z) :
  NoDup (map id (first_by_id seen l)).
Proof.
  revert seen; induction l as [|x t IH]; intros seen; simpl; [constructor|].
  destruct (existsb (Z.eqb (id x)) seen); [apply IH|].
  simpl. constructor; [|apply IH].
  intros C. apply in_map_iff in C as (r & E & Hr).
  apply first_by_id_In in Hr as [_ Hr]. apply Hr, in_or_app.
  right. rewrite E. now left.
Qed.

Lemma first_by_id_find (l : list Detailed) (seen : list Z) (r : Detailed) :
  In r (first_by_id seen l) ->
  find (fun e => id e =? id r) l = Some r.
Proof.
  revert seen; induction l as [|x t IH]; intros seen; simpl; [tauto|].
  assert (Hlater : In r (first_by_id (seen ++ [id x]) t) ->
                   (if id x =? id r then Some x else find (fun e => id e =? id r) t)
                   = Some r).
  { intros H. pose proof (first_by_id_In _ _ _ H) as [_ Hn].
    destruct (Z.eqb_spec (id x) (id r)) as [E|E].
    - exfalso. apply Hn, in_or_app. right. rewrite E. now left.
    - exact (IH _ H). }
  destruct (existsb (Z.eqb (id x)) seen); [exact Hlater|].
  intros [<-|H]; [|exact (Hlater H)].
  now rewrite Z.eqb_refl.
Qed.

Lemma first_by_id_complete (l : list Detailed) (seen : list Z) (r : Detailed) :
  In r l -> In (id r) seen \/ In (id r) (map id (first_by_id seen l)).
Proof.
  revert seen; induction l as [|x t IH]; intros seen; simpl; [tauto|].
  intros [->|H].
  - destruct (existsb (Z.eqb (id r)) seen) eqn:E.
    + left. now apply existsb_eqb_In.
    + right. now left.
  - destruct (IH (seen ++ [id x]) H) as [H1|H1].
    + apply in_app_or in H1 as [H1|[H1|[]]]; [now left|].
      destruct (existsb (Z.eqb (id x)) seen) eqn:E.
      * left. rewrite <- H1. now apply existsb_eqb_In.
      * right. left. exact H1.
    + right. destruct (existsb (Z.eqb (id x)) seen); [assumption | now right].
Qed.

Lemma first_by_id_subseq (l : list Detailed) (seen : list Z) :
  subseq (first_by_id seen l) l.
Proof.
  revert seen; induction l as [|x t IH]; intros seen; simpl; [constructor|].
  destruct (existsb (Z.eqb (id x)) seen); constructor; apply IH.
Qed.

Lemma reduce_sum_dur (l : list Detailed) (acc : Z) :
  reduce (fun acc curr => acc + dur curr) acc l = acc + sum_dur l.
Proof.
  unfold reduce. revert acc; induction l as [|x t IH]; intros acc; simpl.
  - lia.
  - rewrite IH. unfold sum_dur; simpl. lia.
Qed.

(** What the assembled totals are: they describe the fetched sequence, as
    it was before the duplicates were dropped. *)
Lemma assemble_totals (fetched : list Detailed) :
  total_count (assemble fetched) = Js.length fetched /\
  total_grand (assemble fetched) = sum_dur fetched /\
  data (assemble fetched) = first_by_id [] fetched.
Proof.
  unfold assemble; simpl. rewrite reduce_sum_dur, dedup_first_by_id.
  repeat split.
Qed.

Lemma first_by_id_app (l1 l2 : list Detailed) (seen : list Z) :
  first_by_id seen (l1 ++ l2)
  = first_by_id seen l1 ++ first_by_id (seen ++ map id l1) l2.
Proof.
  revert seen; induction l1 as [|x t IH]; intros seen; simpl.
  - now rewrite app_nil_r.
  - rewrite IH, <- app_assoc. simpl.
    destruct (existsb (Z.eqb (id x)) seen); reflexivity.
Qed.

Lemma first_by_id_ids (l : list Detailed) (seen : list Z) :
  map id (first_by_id seen l) = first_ids seen (map id l).
Proof.
  revert seen; induction l as [|x t IH]; intros seen; simpl; [reflexivity|].
  destruct (existsb (Z.eqb (id x)) seen); simpl; now rewrite IH.
Qed.

(** C1. The specification asks for totals over the deduplicated records:
    [total_count] should be the length of [data] and [total_grand] the sum
    of its durations. On the three example pages, where record 2 is
    delivered twice, the assembled report keeps four records of total
    duration 255 but announces [total_count = 5] and [total_grand = 375]:
    the totals are taken before the duplicates are dropped. *)
Theorem getDetailedReport_totals_precede_dedup :
  getDetailedReport (Fulfilled example_pages)
  = Fulfilled
      (mkReport 5 375
         [mkDetailed 1 60 "write"; mkDetailed 2 120 "review";
          mkDetailed 3 30 "mail"; mkDetailed 4 45 "plan"]) /\
  total_count (assemble example_pages)
    <> Js.length (data (assemble example_pages)) /\
  total_grand (assemble example_pages)
    <> sum_dur (data (assemble example_pages)).
Proof.
  split; [reflexivity|].
  split; vm_compute; discriminate.
Qed.

(** C5. After assembly no two records of [data] share an id; the record
    kept for an id is the first one with that id in the fetched sequence;
    every fetched id is represented; [data] is the fetched sequence with
    elements deleted, so the first occurrences keep their order; and
    [data] is exactly what one walk over the fetched sequence gives that
    keeps a record when its id has not been met before, which also fixes
    the position at which each id is kept: a record is kept at the place
    of the first occurrence of its id, so the kept ids are the fetched ids
    in the order in which they first appear. *)
Theorem getDetailedReport_dedup (fetched : list Detailed) :
  exists rep,
    getDetailedReport (Fulfilled fetched) = Fulfilled rep /\
    NoDup (map id (data rep)) /\
    (forall r, In r (data rep) ->
       find (fun e => id e =? id r) fetched = Some r) /\
    (forall r, In r fetched -> In (id r) (map id (data rep))) /\
    subseq (data rep) fetched /\
    data rep = first_by_id [] fetched /\
    (forall before x after,
       fetched = before ++ x :: after ->
       data rep
       = first_by_id [] before ++
         (if existsb (Z.eqb (id x)) (map id before) then [] else [x]) ++
         first_by_id (map id before ++ [id x]) after) /\
    map id (data rep) = first_ids [] (map id fetched).
Proof.
  exists (assemble fetched). split; [reflexivity|].
  destruct (assemble_totals fetched) as (_ & _ & ->).
  repeat match goal with |- _ /\ _ => split end.
  - apply first_by_id_NoDup.
  - intros r. apply first_by_id_find.
  - intros r Hr. destruct (first_by_id_complete _ [] _ Hr) as [[]|H]; exact H.
  - apply first_by_id_subseq.
  - reflexivity.
  - intros before x after ->.
    rewrite (first_by_id_app before (x :: after) []). simpl.
    destruct (existsb (Z.eqb (id x)) (map id before)); reflexivity.
  - apply first_by_id_ids.
Qed.

End ReportFacts.

(** ** Timer reconciliation *)

Section ServiceFacts.
Import TogglService.

Lemma findIndex_from_negative {A} (p : A -> bool) (l : list A) (i : Z) :
  0 <= i -> (findIndex_from p i l <? 0) = negb (existsb p l).
Proof.
  revert i; induction l as [|x t IH]; intros i Hi; simpl; [reflexivity|].
  destruct (p x); simpl.
  - apply Z.ltb_ge; lia.
  - apply IH; lia.
Qed.

Lemma indexOf_negative (tag : string) (l : list string) :
  (indexOf String.eqb tag l <? 0) = true <-> ~ In tag l.
Proof.
  unfold indexOf, findIndex.
  rewrite findIndex_from_negative by lia.
  rewrite negb_true_iff, <- not_true_iff_false, existsb_exists.
  split; intros H C; apply H.
  - exists tag. split; [assumption | apply String.eqb_refl].
  - destruct C as (y & Hy & E). apply String.eqb_eq in E. now subst.
Qed.

Lemma some_tag_missing_false (old_tags new_tags : list string) :
  some_tag_missing old_tags new_tags = false <->
  forall tag, In tag old_tags -> In tag new_tags.
Proof.
  induction old_tags as [|t rest IH]; simpl.
  - split; [intros _ tag [] | reflexivity].
  - destruct (indexOf String.eqb t new_tags <? 0) eqn:E.
    + apply indexOf_negative in E. split; [discriminate|].
      intros H. exfalso. apply E, H. now left.
    + assert (Ht : In t new_tags).
      { destruct (in_dec string_dec t new_tags) as [Hin|Hout]; [assumption|].
        apply indexOf_negative in Hout. congruence. }
      rewrite IH. split.
      * intros H tag [<-|Hin]; auto.
      * intros H tag Hin. apply H. now right.
Qed.

Lemma isTagsChanged_false (old_tags new_tags : option (list string)) :
  isTagsChanged old_tags new_tags = false <-> same_tag_set old_tags new_tags.
Proof.
  unfold isTagsChanged, same_tag_set, Js.length.
  set (o := match old_tags with Some l => l | None => [] end).
  set (n := match new_tags with Some l => l | None => [] end).
  destruct (Z.eqb_spec (Z.of_nat (List.length o)) (Z.of_nat (List.length n)))
    as [E|E]; simpl.
  - rewrite some_tag_missing_false. split; [intros H; split; [lia | exact H] | tauto].
  - split; [discriminate | intros [H _]; lia].
Qed.

Lemma loose_eq_string (a b : option string) :
  loose_eq String.eqb a b = true <-> a = b.
Proof.
  destruct a as [a|], b as [b|]; simpl; try (split; congruence).
  rewrite String.eqb_eq. split; congruence.
Qed.

Lemma loose_eq_Z (a b : option Z) :
  loose_eq Z.eqb a b = true <-> a = b.
Proof.
  destruct a as [a|], b as [b|]; simpl; try (split; congruence).
  rewrite Z.eqb_eq. split; congruence.
Qed.

Lemma details_differ_false (p c : TimerResponse) :
  details_differ p c = false <->
  description p = description c /\ pid p = pid c /\ start p = start c /\
  same_tag_set (tags p) (tags c).
Proof.
  unfold details_differ.
  rewrite !orb_false_iff, !negb_false_iff.
  rewrite loose_eq_string, loose_eq_Z, String.eqb_eq, isTagsChanged_false.
  tauto.
Qed.

Lemma details_differ_true (p c : TimerResponse) :
  details_differ p c = true <->
  description p <> description c \/ pid p <> pid c \/ start p <> start c \/
  ~ same_tag_set (tags p) (tags c).
Proof.
  unfold details_differ.
  rewrite !orb_true_iff, !negb_true_iff.
  rewrite <- !not_true_iff_false.
  rewrite loose_eq_string, loose_eq_Z, String.eqb_eq.
  rewrite <- isTagsChanged_false, not_false_iff_true.
  tauto.
Qed.

(** C4. The classification follows the ordered rules: no timer before and
    after is [Unchanged]; a timer appearing is [Started]; a timer
    disappearing is [Stopped]; differing ids are [Switched] whatever the
    other fields; with equal ids the result is [Updated] exactly when the
    description, project, start or tag set differ and [Unchanged]
    otherwise; a change is flagged for every kind but [Unchanged]; and tag
    sets are equal when the lists have the same cardinality and every
    previous tag is present in current, which holds for any reordering. *)
Theorem classify_rules :
  classify None None = Unchanged /\
  (forall c, classify None (Some c) = Started) /\
  (forall p, classify (Some p) None = Stopped) /\
  (forall p c, id p <> id c -> classify (Some p) (Some c) = Switched) /\
  (forall p c, id p = id c ->
     (classify (Some p) (Some c) = Updated <->
      description p <> description c \/ pid p <> pid c \/
      start p <> start c \/ ~ same_tag_set (tags p) (tags c)) /\
     (classify (Some p) (Some c) = Unchanged <->
      description p = description c /\ pid p = pid c /\
      start p = start c /\ same_tag_set (tags p) (tags c))) /\
  (forall k, changed k = true <-> k <> Unchanged) /\
  (forall old_tags new_tags,
     isTagsChanged old_tags new_tags = false <-> same_tag_set old_tags new_tags) /\
  (forall old_tags new_tags,
     Permutation old_tags new_tags ->
     isTagsChanged (Some old_tags) (Some new_tags) = false).
Proof.
  repeat match goal with |- _ /\ _ => split end; try reflexivity.
  - intros p c H. unfold classify.
    apply Z.eqb_neq in H. now rewrite H.
  - intros p c H. unfold classify.
    apply Z.eqb_eq in H. rewrite H; simpl.
    rewrite <- details_differ_true, <- details_differ_false.
    destruct (details_differ p c); split; split; congruence.
  - intros k. destruct k; simpl; split; congruence.
  - apply isTagsChanged_false.
  - intros o n H. apply isTagsChanged_false. split.
    + now apply Permutation_length.
    + intros tag. now apply Permutation_in.
Qed.

(** C9. In the tag comparison an absent tag list counts as the empty list;
    two snapshots with the same id, description, project and start, one
    without a tag list and one with an empty one, are [Unchanged], in
    either direction. *)
Theorem absent_tags_are_empty_tags :
  (forall other, isTagsChanged None other = isTagsChanged (Some []) other) /\
  (forall other, isTagsChanged other None = isTagsChanged other (Some [])) /\
  (forall i w w' p d st sp sp' e e' du du',
     classify (Some (mkTimerResponse i w p d st sp e du None))
              (Some (mkTimerResponse i w' p d st sp' e' du' (Some [])))
     = Unchanged /\
     classify (Some (mkTimerResponse i w p d st sp e du (Some [])))
              (Some (mkTimerResponse i w' p d st sp' e' du' None))
     = Unchanged).
Proof.
  split; [reflexivity|]. split; [reflexivity|].
  intros. unfold classify; simpl. rewrite Z.eqb_refl; simpl.
  assert (Hd : forall t1 t2 a b,
             isTagsChanged t1 t2 = false ->
             details_differ (mkTimerResponse i w p d st sp e du t1)
                            (mkTimerResponse i a p d st b e' du' t2) = false).
  { intros t1 t2 a b Ht. apply details_differ_false; simpl.
    repeat split; try reflexivity; apply isTagsChanged_false in Ht; apply Ht. }
  rewrite !Hd by reflexivity. split; reflexivity.
Qed.

(** *** The workspace filter *)

(** C2, as the specification words it, fails: a timer of another workspace
    that has no project is not dropped. Fetched while no timer is held, it
    is classified [Started] and becomes the held snapshot, whereas a fetch
    of no timer is [Unchanged] and holds nothing. *)
Lemma foreign_projectless_timer_not_dropped :
  wid foreign_projectless_timer <> workspaceId idle_service /\
  classify None (drop_other_workspace (workspaceId idle_service)
                   (Some foreign_projectless_timer)) = Started /\
  classify None None = Unchanged /\
  _currentTimeEntry
    (updateCurrentTimer_resume 1700000100000 None
       (Fulfilled (Some foreign_projectless_timer)) idle_service)
  = Some foreign_projectless_timer /\
  _currentTimeEntry
    (updateCurrentTimer_resume 1700000100000 None (Fulfilled None) idle_service)
  = None.
Proof.
  repeat split; vm_compute; congruence.
Qed.

(** C2, amended. A fetched timer whose workspace differs from the
    configured one and which has a project assigned is treated as no timer:
    the whole pass runs exactly as if nothing had been fetched. A fetched
    timer that has no project assigned is never dropped by the filter,
    whatever its workspace; in general the filter drops a timer exactly
    when its workspace differs and it has a project. *)
Theorem foreign_timer_with_project_is_no_timer
        (now_ms : Z) (prev : option TimerResponse) (s : Service)
        (t : TimerResponse) (project : Z) :
  wid t <> workspaceId s ->
  pid t = Some project ->
  drop_other_workspace (workspaceId s) (Some t) = None /\
  classify prev (drop_other_workspace (workspaceId s) (Some t))
  = classify prev None /\
  updateCurrentTimer_resume now_ms prev (Fulfilled (Some t)) s
  = updateCurrentTimer_resume now_ms prev (Fulfilled None) s /\
  (forall workspace t',
     pid t' = None -> drop_other_workspace workspace (Some t') = Some t') /\
  (forall workspace t',
     drop_other_workspace workspace (Some t') = None <->
     wid t' <> workspace /\ pid t' <> None) /\
  (forall workspace t',
     drop_other_workspace workspace (Some t') = Some t' <->
     wid t' = workspace \/ pid t' = None).
Proof.
  intros Hw Hp.
  assert (H : drop_other_workspace (workspaceId s) (Some t) = None).
  { unfold drop_other_workspace. rewrite Hp.
    apply Z.eqb_neq in Hw. now rewrite Hw. }
  split; [exact H|]. split; [now rewrite H|].
  split; [unfold updateCurrentTimer_resume; now rewrite H|].
  split; [|split].
  - intros workspace t' Hn. unfold drop_other_workspace.
    rewrite Hn. now rewrite andb_false_r.
  - intros workspace t'. unfold drop_other_workspace.
    destruct (Z.eqb_spec (wid t') workspace) as [E|E];
      destruct (pid t') as [p|]; simpl; split;
      try discriminate; try (intros [A B]; congruence).
    intros _. split; [exact E | discriminate].
  - intros workspace t'. unfold drop_other_workspace.
    destruct (Z.eqb_spec (wid t') workspace) as [E|E];
      destruct (pid t') as [p|]; simpl; split;
      try discriminate; auto.
    intros [A|A]; congruence.
Qed.

Lemma foreign_timer_with_project_is_no_timer_witness :
  updateCurrentTimer_resume 1700000100000 None
    (Fulfilled (Some foreign_project_timer)) idle_service
  = updateCurrentTimer_resume 1700000100000 None (Fulfilled None) idle_service.
Proof.
  apply (foreign_timer_with_project_is_no_timer
           1700000100000 None idle_service foreign_project_timer 9).
  - vm_compute; discriminate.
  - reflexivity.
Defined.

(** *** Credentials *)

(** C3. The specification wants a failed probe to end in [UNREACHABLE] with
    a notice. With a non-empty token the service is [AVAILABLE] as soon as
    [setToken] returns, whatever token and whatever state it started from,
    and stays so when the probe then fails: polling has started, the status
    store was told [AVAILABLE], and no notice was added. *)
Theorem setToken_probe_failure_leaves_available
        (c : ascii) (rest err : string) (s : Service) :
  let s' := probe_settled (Rejected err) (setToken (Some (String c rest)) s) in
  _ApiAvailable s' = AVAILABLE /\
  _currentTimerInterval s' = Some (next_handle s) /\
  trace s' =
    trace s ++
    [ClearInterval (_currentTimerInterval s);
     Remote WorkspacesList;
     Remote TimeEntriesCurrent;
     SetInterval (next_handle s);
     RegisterInterval (next_handle s);
     Remote (WorkspacesProjects (settings_workspace_id s));
     Remote (WorkspacesTags (settings_workspace_id s));
     Remote (ReportsSummaryToday (settings_workspace_id s));
     ApiStatusStoreSet AVAILABLE;
     UnhandledRejection "Cannot connect to Toggl API."].
Proof.
  destruct s as [pr iv te st ws cl nh tr]. cbn.
  repeat split. rewrite <- !app_assoc. reflexivity.
Qed.

(** *** Duration of the held timer *)

Lemma round_div_1000_exact (epoch : Z) : round_div_1000 (1000 * epoch) = epoch.
Proof.
  unfold round_div_1000.
  replace (1000 * epoch + 500) with (500 + epoch * 1000) by lia.
  rewrite Z.div_add by lia. reflexivity.
Qed.

(** C6. For a running entry ([stop] unset) the duration is the wall-clock
    epoch second plus the encoded duration; for a stopped entry the encoded
    duration is returned as it is. At epoch second 1700000100 an encoding
    of -1700000000 gives 100 seconds, and a stopped 3600 gives 3600. *)
Theorem getTimerDuration_dual_encoding :
  (forall now_ms i w p d st e du tg,
     getTimerDuration now_ms (mkTimerResponse i w p d st None e du tg)
     = round_div_1000 now_ms + du) /\
  (forall epoch i w p d st e du tg,
     getTimerDuration (1000 * epoch) (mkTimerResponse i w p d st None e du tg)
     = epoch + du) /\
  (forall now_ms i w p d st c rest e du tg,
     getTimerDuration now_ms
       (mkTimerResponse i w p d st (Some (String c rest)) e du tg)
     = du) /\
  getTimerDuration 1700000100000 foreign_projectless_timer = 100 /\
  (forall now_ms,
     getTimerDuration now_ms
       (mkTimerResponse 5 1 None None "2023-11-14T21:13:20+00:00"
          (Some "2023-11-14T22:13:20+00:00") None 3600 None)
     = 3600).
Proof.
  repeat split.
  intros. unfold getTimerDuration. cbn [stop truthy_string duration].
  now rewrite round_div_1000_exact.
Qed.

(** *** A poll whose fetch fails *)

(** C7. When the fetch of a pass fails, the pass only writes the two error
    lines to the console: the held snapshot, the interval handle and the
    API status are untouched, nothing is published to the timer store, no
    summary is requested, no notice is shown, the status bar is left alone,
    and the next pass issues its fetch exactly as it would have. *)
Theorem failed_fetch_skips_the_pass
        (now_ms : Z) (prev : option TimerResponse) (err : string) (s : Service) :
  let s' := updateCurrentTimer_resume now_ms prev (Rejected err) s in
  _currentTimeEntry s' = _currentTimeEntry s /\
  _currentTimerInterval s' = _currentTimerInterval s /\
  _ApiAvailable s' = _ApiAvailable s /\
  _projects s' = _projects s /\
  trace s' = trace s ++ [ConsoleError "Error reaching Toggl API"; ConsoleError err] /\
  snd (updateCurrentTimer_call s') = snd (updateCurrentTimer_call s) /\
  _currentTimeEntry (poll_tick now_ms (Rejected err) s) = _currentTimeEntry s /\
  (forall e, In e (trace (poll_tick now_ms (Rejected err) s)) ->
     In e (trace s) \/ e = Remote TimeEntriesCurrent \/
     e = ConsoleError "Error reaching Toggl API" \/ e = ConsoleError err).
Proof.
  destruct s as [pr iv te st ws cl nh tr]. cbn.
  do 4 (split; [reflexivity|]).
  split; [now rewrite <- app_assoc|].
  split.
  { unfold updateCurrentTimer_call, isApiAvailable; cbn.
    destruct (ApiStatus_eqb st AVAILABLE); reflexivity. }
  unfold poll_tick, updateCurrentTimer_call, isApiAvailable; cbn.
  destruct (ApiStatus_eqb st AVAILABLE); cbn; (split; [reflexivity|]);
    intros e H.
  - repeat (apply in_app_or in H as [H|H]); cbn in H; intuition auto.
  - now left.
Qed.

(** *** Stopping the timer *)

(** C10. While the API is available, [stopTimer] without a held entry does
    nothing at all: the service, trace included, is as before. With a held
    entry it adds exactly one remote stop call, for the id of that entry. *)
Theorem stopTimer_acts_on_held_entry (s : Service) :
  _ApiAvailable s = AVAILABLE ->
  match _currentTimeEntry s with
  | None => stopTimer s = s
  | Some e =>
      trace (stopTimer s) = trace s ++ [Remote (TimeEntriesStop (id e))] /\
      _currentTimeEntry (stopTimer s) = Some e /\
      _ApiAvailable (stopTimer s) = AVAILABLE
  end.
Proof.
  intros H. unfold stopTimer, executeIfAPIAvailable, isApiAvailable.
  rewrite H; simpl.
  destruct (_currentTimeEntry s) eqn:E; [|reflexivity].
  simpl. rewrite E. auto.
Qed.

Lemma stopTimer_acts_on_held_entry_witness :
  stopTimer idle_service = idle_service.
Proof.
  exact (stopTimer_acts_on_held_entry idle_service eq_refl).
Defined.

End ServiceFacts.

(** ** The request queue *)

Section QueueFacts.
Import ApiQueue.
Local Open Scope nat_scope.

Lemma submitted_app (a b : list Input) :
  submitted (a ++ b) = submitted a ++ submitted b.
Proof.
  induction a as [|[o|] a IH]; simpl; [reflexivity | now rewrite IH | exact IH].
Qed.

Lemma tickets_snoc (outs : list Outcome) (o : Outcome) (t : nat) :
  tickets t (outs ++ [o]) = tickets t outs ++ [(t + List.length outs, o)].
Proof.
  revert t; induction outs as [|x r IH]; intros t; simpl.
  - now rewrite Nat.add_0_r.
  - rewrite IH. simpl. now rewrite Nat.add_succ_r.
Qed.

Lemma serial_snoc (outs : list Outcome) (o : Outcome) (t : nat) :
  serial t (outs ++ [o])
  = serial t outs ++ [Began (t + List.length outs); Settled (t + List.length outs) o].
Proof.
  revert t; induction outs as [|x r IH]; intros t; simpl.
  - now rewrite Nat.add_0_r.
  - rewrite IH. simpl. now rewrite Nat.add_succ_r.
Qed.

Lemma enqueue_after (done rest : list Outcome) (o : Outcome) :
  enqueue o (after done rest) = after done (rest ++ [o]).
Proof.
  destruct rest as [|x w]; unfold enqueue, pump, after; simpl.
  - now rewrite Nat.add_0_r.
  - rewrite tickets_snoc, length_app. simpl.
    now rewrite Nat.add_1_r, Nat.add_succ_r.
Qed.

Lemma settle_after (done : list Outcome) (x : Outcome) (w : list Outcome) :
  settle (after done (x :: w)) = after (done ++ [x]) w.
Proof.
  unfold settle, after; simpl.
  rewrite <- app_assoc; simpl.
  rewrite serial_snoc, length_app; simpl.
  destruct w as [|y w']; unfold pump; simpl;
    rewrite ?Nat.add_0_r, ?Nat.add_1_r, ?Nat.add_succ_r, <- ?app_assoc;
    reflexivity.
Qed.

Lemma settle_idle (done : list Outcome) :
  settle (after done []) = after done [].
Proof. reflexivity. Qed.

(** Every reachable queue is [after done rest] for a split of the
    submitted operations. *)
Lemma run_after (inputs : list Input) :
  exists done rest,
    submitted inputs = done ++ rest /\ run inputs = after done rest.
Proof.
  induction inputs as [|i inputs IH] using rev_ind.
  - exists [], []. split; reflexivity.
  - destruct IH as (done & rest & Hs & Hr).
    unfold run in *. rewrite fold_left_app, Hr, submitted_app, Hs. simpl.
    destruct i as [o|]; simpl.
    + exists done, (rest ++ [o]). split; [now rewrite app_assoc | apply enqueue_after].
    + rewrite app_nil_r. destruct rest as [|x w].
      * exists done, []. split; [reflexivity | apply settle_idle].
      * exists (done ++ [x]), w. split; [|apply settle_after].
        rewrite <- app_assoc. reflexivity.
Qed.

Lemma events_after (done rest : list Outcome) :
  events (after done rest)
  = serial 0 done ++ match rest with [] => [] | _ :: _ => [Began (List.length done)] end.
Proof.
  destruct rest; simpl; [now rewrite app_nil_r | reflexivity].
Qed.

Lemma serial_before_began (outs : list Outcome) (t : nat) (tail l1 l2 : list Event)
      (j : nat) :
  serial t outs ++ tail = l1 ++ Began j :: l2 ->
  tail = [] \/ tail = [Began (t + List.length outs)] ->
  forall i, t <= i < j ->
    exists o, nth_error outs (i - t) = Some o /\ In (Settled i o) l1.
Proof.
  revert t l1; induction outs as [|o r IH]; intros t l1 E Ht i Hi; simpl in E.
  - destruct Ht as [->| ->]; [now destruct l1|].
    destruct l1 as [|e [|e' l1]]; simpl in E; try discriminate.
    injection E as E _. simpl in E. lia.
  - destruct l1 as [|e l1]; simpl in E; [injection E as E _; lia|].
    injection E as <- E.
    destruct l1 as [|e l1]; simpl in E; [discriminate|].
    injection E as <- E.
    destruct (Nat.eq_dec i t) as [->|Hne].
    + exists o. rewrite Nat.sub_diag. split; [reflexivity | right; now left].
    + assert (Ht' : tail = [] \/ tail = [Began (S t + List.length r)]).
      { destruct Ht as [->| ->]; [now left | right].
        simpl. repeat f_equal. lia. }
      destruct (IH (S t) l1 E Ht' i ltac:(lia)) as (o' & Hn & Hin).
      exists o'. split; [|right; right; exact Hin].
      replace (i - t) with (S (i - S t)) by lia. exact Hn.
Qed.

Lemma serial_settled (outs : list Outcome) (t i : nat) (o : Outcome) :
  In (Settled i o) (serial t outs) ->
  t <= i /\ nth_error outs (i - t) = Some o.
Proof.
  revert t; induction outs as [|x r IH]; intros t; simpl; [tauto|].
  intros [H|[H|H]]; [discriminate | |].
  - injection H as -> ->. rewrite Nat.sub_diag. split; [lia | reflexivity].
  - apply IH in H as [H1 H2]. split; [lia|].
    replace (i - t) with (S (i - S t)) by lia. exact H2.
Qed.

Lemma serial_began_before_settled (outs : list Outcome) (t : nat)
      (tail l1 l2 : list Event) (i : nat) (o : Outcome) :
  serial t outs ++ tail = l1 ++ Settled i o :: l2 ->
  tail = [] \/ (exists k, tail = [Began k]) ->
  In (Began i) l1.
Proof.
  revert t l1; induction outs as [|x r IH]; intros t l1 E Ht; simpl in E.
  - destruct Ht as [->|(k & ->)]; [now destruct l1|].
    destruct l1 as [|e [|e' l1]]; simpl in E; discriminate.
  - destruct l1 as [|e l1]; simpl in E; [discriminate|].
    injection E as <- E.
    destruct l1 as [|e l1]; simpl in E.
    + injection E as -> _. now left.
    + injection E as <- E. right; right. exact (IH _ _ E Ht).
Qed.

Lemma serial_began (outs : list Outcome) (t i : nat) :
  t <= i < t + List.length outs -> In (Began i) (serial t outs).
Proof.
  revert t; induction outs as [|x r IH]; intros t; simpl; [lia|].
  intros H. destruct (Nat.eq_dec i t) as [->|Hne]; [now left|].
  right; right. apply IH. lia.
Qed.

Lemma began_tickets_app (a b : list Event) :
  began_tickets (a ++ b) = began_tickets a ++ began_tickets b.
Proof.
  induction a as [|[t|t o] a IH]; simpl; [reflexivity | now rewrite IH | exact IH].
Qed.

Lemma began_tickets_serial (outs : list Outcome) (t : nat) :
  began_tickets (serial t outs) = seq t (List.length outs).
Proof.
  revert t; induction outs as [|x r IH]; intros t; simpl; [reflexivity|].
  now rewrite IH.
Qed.

Lemma settled_in_after (done rest : list Outcome) (i : nat) (o : Outcome) :
  In (Settled i o) (events (after done rest)) ->
  i < List.length done /\ nth_error (done ++ rest) i = Some o.
Proof.
  rewrite events_after. intros H.
  apply in_app_or in H as [H|H].
  - apply serial_settled in H as [_ H]. rewrite Nat.sub_0_r in H.
    assert (Hlt : i < List.length done) by (apply nth_error_Some; congruence).
    split; [exact Hlt|]. now rewrite nth_error_app1.
  - destruct rest; simpl in H; [tauto|]. destruct H as [H|[]]. discriminate.
Qed.

Lemma settle_repeatedly (n : nat) (done rest : list Outcome) :
  fold_left step (repeat Settle n) (after done rest)
  = after (done ++ firstn n rest) (skipn n rest).
Proof.
  revert done rest; induction n as [|n IH]; intros done rest; simpl.
  - now rewrite app_nil_r.
  - destruct rest as [|x w].
    + rewrite settle_idle, IH, firstn_nil, skipn_nil. reflexivity.
    + rewrite settle_after, IH, <- app_assoc. reflexivity.
Qed.

(** C8. Whatever the interleaving of submissions and settlements: the
    operations begin in submission order, one ticket after the other; when
    an operation begins, every operation submitted before it has settled,
    by success or by failure; a caller's promise settles with the outcome
    of its own operation and only after that operation began; and a
    submitted operation has begun as soon as all earlier ones have settled,
    whatever their outcomes, as in the run where the first operation fails
    and the second still runs and succeeds. In any state of the queue, when
    the operation in flight settles, with whatever outcome, that outcome is
    handed to its caller and the oldest waiting operation begins at once.
    Hence once the promises in flight have all settled, every submitted
    operation has run and settled with its own outcome, in submission
    order, failures included. *)
Theorem queue_runs_in_submission_order (inputs : list Input) :
  let log := events (run inputs) in
  let subs := submitted inputs in
  began_tickets log = seq 0 (List.length (began_tickets log)) /\
  (forall l1 j l2, log = l1 ++ Began j :: l2 ->
     forall i, i < j ->
       exists o, nth_error subs i = Some o /\ In (Settled i o) l1) /\
  (forall i o, In (Settled i o) log -> nth_error subs i = Some o) /\
  (forall l1 i o l2, log = l1 ++ Settled i o :: l2 -> In (Began i) l1) /\
  (forall i, i < List.length subs ->
     (forall k, k < i -> exists o, In (Settled k o) log) ->
     In (Began i) log) /\
  events (run failure_then_success)
  = [Began 0; Settled 0 (Rejected "503"); Began 1; Settled 1 (Fulfilled 7%Z)] /\
  (forall q t o,
     running q = Some (t, o) ->
     events (step q Settle)
     = events q ++
       Settled t o ::
       match waiting q with
       | [] => []
       | (t', _) :: _ => [Began t']
       end /\
     running (step q Settle) = hd_error (waiting q) /\
     waiting (step q Settle) = tl (waiting q)) /\
  (forall o,
     running (run inputs) = None ->
     running (step (run inputs) (Enqueue o))
     = Some (List.length subs, o) /\
     events (step (run inputs) (Enqueue o))
     = log ++ [Began (List.length subs)]) /\
  events (run (inputs ++ repeat Settle (List.length subs))) = serial 0 subs /\
  running (run (inputs ++ repeat Settle (List.length subs))) = None /\
  waiting (run (inputs ++ repeat Settle (List.length subs))) = [].
Proof.
  cbv zeta.
  destruct (run_after inputs) as (done & rest & Hs & Hr).
  assert (Hall : run (inputs ++ repeat Settle (List.length (submitted inputs)))
                 = after (submitted inputs) []).
  { unfold run in *. rewrite fold_left_app, Hr, settle_repeatedly, Hs.
    rewrite firstn_all2, skipn_all2 by (rewrite length_app; lia).
    reflexivity. }
  rewrite Hall, Hr, Hs.
  repeat match goal with |- _ /\ _ => split end.
  - rewrite events_after, began_tickets_app, began_tickets_serial, length_app.
    rewrite length_seq.
    destruct rest; simpl.
    + now rewrite app_nil_r, Nat.add_0_r.
    + rewrite seq_app. reflexivity.
  - intros l1 j l2 E i Hi. rewrite events_after in E.
    destruct (serial_before_began done 0 _ l1 l2 j E) with (i := i)
      as (o & Hn & Hin).
    + destruct rest; [now left | now right].
    + lia.
    + exists o. split; [|exact Hin].
      rewrite Nat.sub_0_r in Hn.
      rewrite nth_error_app1; [exact Hn|].
      apply nth_error_Some; congruence.
  - intros i o H. now apply settled_in_after in H.
  - intros l1 i o l2 E. rewrite events_after in E.
    apply (serial_began_before_settled done 0 _ l1 l2 i o E).
    destruct rest; [now left | right; eauto].
  - intros i Hi Hsettled.
    destruct (Nat.lt_trichotomy i (List.length done)) as [Hlt|[->|Hgt]].
    + rewrite events_after. apply in_or_app. left. apply serial_began. lia.
    + rewrite events_after. apply in_or_app. right.
      rewrite length_app in Hi.
      destruct rest; simpl in *; [lia | now left].
    + destruct (Hsettled (List.length done) Hgt) as (o & Ho).
      apply settled_in_after in Ho as [Ho _]. lia.
  - reflexivity.
  - intros q t o H. unfold step, settle. rewrite H. unfold pump. simpl.
    destruct (waiting q) as [|[t' o'] w]; simpl;
      rewrite <- ?app_assoc; repeat split.
  - intros o H. destruct rest as [|x w]; [|discriminate H].
    rewrite app_nil_r. simpl. split; reflexivity.
  - reflexivity.
  - reflexivity.
  - reflexivity.
Qed.

End QueueFacts.

(** * Further properties *)

(** ** Reports and workspaces *)

Section ReportMore.
Import TogglAPI.

Lemma first_by_id_fresh (l : list Detailed) (seen : list Z) :
  (forall r, In r l -> ~ In (id r) seen) ->
  NoDup (map id l) ->
  first_by_id seen l = l.
Proof.
  revert seen; induction l as [|x t IH]; intros seen Hs Hn; simpl; [reflexivity|].
  simpl in Hn. inversion Hn as [|? ? Hx Ht]; subst.
  destruct (existsb (Z.eqb (id x)) seen) eqn:E.
  - apply existsb_eqb_In in E. exfalso. apply (Hs x); [now left | exact E].
  - f_equal. apply IH; [|exact Ht].
    intros r Hr C. apply in_app_or in C as [C|[C|[]]].
    + apply (Hs r); [now right | exact C].
    + apply Hx. rewrite C. now apply in_map.
Qed.

Lemma subseq_length {A} (l1 l2 : list A) :
  subseq l1 l2 -> (List.length l1 <= List.length l2)%nat.
Proof. induction 1; simpl; lia. Qed.

Lemma subseq_same_length {A} (l1 l2 : list A) :
  subseq l1 l2 -> List.length l1 = List.length l2 -> l1 = l2.
Proof.
  induction 1 as [|x l1 l2 H IH|x l1 l2 H IH]; simpl; intros E.
  - reflexivity.
  - apply subseq_length in H. lia.
  - f_equal. apply IH. lia.
Qed.

Lemma subseq_sum_dur (l1 l2 : list Detailed) :
  subseq l1 l2 -> Forall (fun r => 0 <= dur r) l2 -> sum_dur l1 <= sum_dur l2.
Proof.
  unfold sum_dur.
  induction 1 as [|x l1 l2 H IH|x l1 l2 H IH]; simpl; intros F.
  - lia.
  - inversion F; subst. specialize (IH ltac:(assumption)). lia.
  - inversion F; subst. specialize (IH ltac:(assumption)). lia.
Qed.

(** When the fetched records carry no id twice, the report is the fetched
    sequence itself and its totals describe its data: the count is the
    number of records and the grand total the sum of their durations. *)
Theorem getDetailedReport_without_duplicates (fetched : list Detailed) :
  NoDup (map id fetched) ->
  getDetailedReport (Fulfilled fetched)
  = Fulfilled (mkReport (Js.length fetched) (sum_dur fetched) fetched).
Proof.
  intros H. simpl. f_equal.
  destruct (assemble_totals fetched) as (Hc & Hg & Hd).
  destruct (assemble fetched) as [c g d]; simpl in *. subst.
  now rewrite first_by_id_fresh.
Qed.

Lemma getDetailedReport_without_duplicates_witness :
  getDetailedReport
    (Fulfilled [mkDetailed 1 60 "write"; mkDetailed 2 120 "review"])
  = Fulfilled
      (mkReport 2 180 [mkDetailed 1 60 "write"; mkDetailed 2 120 "review"]).
Proof.
  apply (getDetailedReport_without_duplicates
           [mkDetailed 1 60 "write"; mkDetailed 2 120 "review"]).
  repeat constructor; simpl; intuition discriminate.
Defined.

(** Assembling the data of an assembled report once more changes nothing:
    the data stay as they are, and this time the totals are those of the
    data. *)
Theorem assemble_data_idempotent (fetched : list Detailed) :
  let again := assemble (data (assemble fetched)) in
  data again = data (assemble fetched) /\
  total_count again = Js.length (data (assemble fetched)) /\
  total_grand again = sum_dur (data (assemble fetched)).
Proof.
  cbv zeta.
  destruct (assemble_totals (data (assemble fetched))) as (Hc & Hg & Hd).
  rewrite Hc, Hg, Hd. repeat split.
  destruct (assemble_totals fetched) as (_ & _ & ->).
  apply first_by_id_fresh; [tauto | apply first_by_id_NoDup].
Qed.

(** The announced count is never below the number of records delivered,
    and the two agree exactly when no id was fetched twice. *)
Theorem total_count_exact_iff_no_duplicate (fetched : list Detailed) :
  Js.length (data (assemble fetched)) <= total_count (assemble fetched) /\
  (total_count (assemble fetched) = Js.length (data (assemble fetched))
   <-> NoDup (map id fetched)).
Proof.
  destruct (assemble_totals fetched) as (Hc & _ & Hd).
  rewrite Hc, Hd. unfold Js.length.
  pose proof (first_by_id_subseq fetched []) as Hs.
  split; [apply subseq_length in Hs; lia|].
  split.
  - intros E. apply subseq_same_length in Hs; [|lia].
    rewrite <- Hs. apply first_by_id_NoDup.
  - intros H. rewrite first_by_id_fresh; tauto.
Qed.

(** When no fetched duration is negative, the announced grand total is
    never below the sum of the durations of the records delivered. *)
Theorem total_grand_bounds_data (fetched : list Detailed) :
  Forall (fun r => 0 <= dur r) fetched ->
  sum_dur (data (assemble fetched)) <= total_grand (assemble fetched).
Proof.
  intros H. destruct (assemble_totals fetched) as (_ & Hg & Hd).
  rewrite Hg, Hd. apply subseq_sum_dur; [apply first_by_id_subseq | exact H].
Qed.

Lemma total_grand_bounds_data_witness :
  sum_dur (data (assemble example_pages)) <= total_grand (assemble example_pages).
Proof.
  apply (total_grand_bounds_data example_pages).
  unfold example_pages. repeat constructor; simpl; lia.
Defined.

Lemma number_to_string_inj (a b : Z) :
  number_to_string a = number_to_string b -> a = b.
Proof.
  unfold number_to_string. intros H.
  assert (Hn : forall z, NilZero.int_of_string (NilZero.string_of_int (Z.to_int z))
                         = Some (Z.to_int z)).
  { intros z. apply NilZero.isi; destruct z; simpl; try discriminate;
      intros C; injection C as C;
      now apply DecimalPos.Unsigned.to_uint_nonnil in C. }
  apply (f_equal NilZero.int_of_string) in H.
  rewrite !Hn in H. injection H as H.
  apply (f_equal Z.of_int) in H. now rewrite !DecimalZ.of_to in H.
Qed.

(** [getWorkspaces] succeeds exactly when both of its list requests do; it
    fails with the error of the first that fails. Its result is built from
    the first response alone: one workspace per element, in order, names
    kept, and the rendered ids are pairwise distinct exactly when the
    numeric ids are. *)
Theorem getWorkspaces_from_first_response
        (first second : settled (list RawWorkspace)) :
  match first, second with
  | Fulfilled response, Fulfilled _ =>
      exists result,
        getWorkspaces first second = Fulfilled result /\
        map TogglWorkspace.name result = map w_name response /\
        map TogglWorkspace.id result
        = map (fun w => number_to_string (w_id w)) response /\
        (NoDup (map TogglWorkspace.id result) <-> NoDup (map w_id response))
  | Rejected e, _ => getWorkspaces first second = Rejected e
  | Fulfilled _, Rejected e => getWorkspaces first second = Rejected e
  end.
Proof.
  destruct first as [response|e]; [|reflexivity].
  destruct second as [other|e]; [|reflexivity].
  eexists. split; [reflexivity|].
  rewrite !map_map; simpl. split; [reflexivity|]. split; [reflexivity|].
  rewrite <- (map_map w_id number_to_string). split.
  - apply NoDup_map_inv.
  - apply Finite.Injective_map_NoDup. intros a b. apply number_to_string_inj.
Qed.

End ReportMore.

(** ** Reconciliation passes *)

Section PassFacts.
Import TogglService.

Lemma published_app (a b : list Effect) :
  published (a ++ b) = published a ++ published b.
Proof.
  induction a as [|e a IH]; simpl; [reflexivity|].
  destruct e; simpl; now rewrite ?IH.
Qed.

Lemma remote_calls_app (a b : list Effect) :
  remote_calls (a ++ b) = remote_calls a ++ remote_calls b.
Proof.
  induction a as [|e a IH]; simpl; [reflexivity|].
  destruct e; simpl; now rewrite ?IH.
Qed.

Lemma notices_app (a b : list Effect) :
  notices (a ++ b) = notices a ++ notices b.
Proof.
  induction a as [|e a IH]; simpl; [reflexivity|].
  destruct e; simpl; now rewrite ?IH.
Qed.

Lemma updateStatusBarText_logs (now_ms : Z) (s : Service) :
  exists text, updateStatusBarText now_ms s = log (StatusBarSetText text) s.
Proof. eexists. reflexivity. Qed.

Lemma classify_same (x : option TimerResponse) : classify x x = Unchanged.
Proof.
  destruct x as [c|]; [|reflexivity].
  unfold classify. rewrite Z.eqb_refl; simpl.
  assert (H : details_differ c c = false).
  { apply details_differ_false. repeat split; auto. }
  now rewrite H.
Qed.

Lemma drop_other_workspace_twice (workspace : Z) (curr : option TimerResponse) :
  drop_other_workspace workspace (drop_other_workspace workspace curr)
  = drop_other_workspace workspace curr.
Proof.
  destruct curr as [c|]; [|reflexivity]. simpl.
  destruct (negb (wid c =? workspace) && _) eqn:E; simpl; [reflexivity|].
  now rewrite E.
Qed.

Lemma resume_fulfilled_shape
        (now_ms : Z) (prev curr : option TimerResponse) (s : Service) :
  let curr' := drop_other_workspace (workspaceId s) curr in
  let kind := classify prev curr' in
  let s' := updateCurrentTimer_resume now_ms prev (Fulfilled curr) s in
  (exists text,
     trace s' =
       trace s ++ debug_line kind ++
       (if changed kind
        then [CurrentTimerSet
                (match curr' with
                 | Some c => Some (responseToTimeEntry s c)
                 | None => None
                 end);
              Remote (ReportsSummaryToday (settings_workspace_id s))]
        else []) ++
       [StatusBarSetText text]) /\
  _currentTimeEntry s' = curr' /\
  notices (trace s') = notices (trace s) /\
  _ApiAvailable s' = _ApiAvailable s /\
  _currentTimerInterval s' = _currentTimerInterval s /\
  _projects s' = _projects s /\
  settings_workspace_id s' = settings_workspace_id s /\
  settings_charLimitStatusBar s' = settings_charLimitStatusBar s.
Proof.
  cbv zeta. unfold updateCurrentTimer_resume.
  generalize (drop_other_workspace (workspaceId s) curr) as c. intros c.
  destruct s as [pr iv te st ws cl nh tr].
  destruct (classify prev c);
    cbn [debug_line changed fold_left];
    match goal with
    | |- context [updateStatusBarText ?n ?x] =>
        destruct (updateStatusBarText_logs n x) as (text & ->)
    end;
    cbn;
    (split; [exists text; rewrite <- ?app_assoc; reflexivity|]);
    rewrite ?notices_app; cbn; rewrite ?app_nil_r; repeat split.
Qed.


(** What a pass does once its fetch has succeeded. With [curr'] the fetched
    timer after the workspace filter and [kind] its classification against
    the snapshot remembered at the start of the pass: the held snapshot
    becomes [curr']; if [kind] is [Unchanged] the only effect is one status
    bar update; otherwise the pass writes its debug line, publishes [curr']
    to the timer store once, requests the daily summary once, and updates
    the status bar. It shows no notice and leaves the API status, the
    interval handle, the cached projects and the settings alone. *)
Theorem successful_pass_effects
        (now_ms : Z) (prev curr : option TimerResponse) (s : Service) :
  let curr' := drop_other_workspace (workspaceId s) curr in
  let kind := classify prev curr' in
  let s' := updateCurrentTimer_resume now_ms prev (Fulfilled curr) s in
  (exists text,
     trace s' =
       trace s ++ debug_line kind ++
       (if changed kind
        then [CurrentTimerSet
                (match curr' with
                 | Some c => Some (responseToTimeEntry s c)
                 | None => None
                 end);
              Remote (ReportsSummaryToday (settings_workspace_id s))]
        else []) ++
       [StatusBarSetText text]) /\
  _currentTimeEntry s' = curr' /\
  notices (trace s') = notices (trace s) /\
  _ApiAvailable s' = _ApiAvailable s /\
  _currentTimerInterval s' = _currentTimerInterval s /\
  _projects s' = _projects s /\
  settings_workspace_id s' = settings_workspace_id s /\
  settings_charLimitStatusBar s' = settings_charLimitStatusBar s.
Proof. exact (resume_fulfilled_shape now_ms prev curr s). Qed.

Lemma poll_tick_available (now_ms : Z) (fetch : settled (option TimerResponse))
      (s : Service) :
  _ApiAvailable s = AVAILABLE ->
  poll_tick now_ms fetch s
  = updateCurrentTimer_resume now_ms (_currentTimeEntry s) fetch
      (log (Remote TimeEntriesCurrent) s).
Proof.
  intros H. unfold poll_tick, updateCurrentTimer_call, isApiAvailable.
  now rewrite H.
Qed.

Lemma unavailable_not_available (s : Service) :
  _ApiAvailable s <> AVAILABLE -> isApiAvailable s = false.
Proof.
  unfold isApiAvailable. destruct (_ApiAvailable s); simpl; congruence.
Qed.

Lemma responseToTimeEntry_projects (s1 s2 : Service) (r : TimerResponse) :
  _projects s1 = _projects s2 ->
  responseToTimeEntry s1 r = responseToTimeEntry s2 r.
Proof.
  intros H. unfold responseToTimeEntry, cachedProjects. now rewrite H.
Qed.

Lemma resume_fulfilled_published
      (now_ms : Z) (prev curr : option TimerResponse) (s : Service) :
  published (trace (updateCurrentTimer_resume now_ms prev (Fulfilled curr) s))
  = published (trace s) ++
    (if changed (classify prev (drop_other_workspace (workspaceId s) curr))
     then [match drop_other_workspace (workspaceId s) curr with
           | Some c => Some (responseToTimeEntry s c)
           | None => None
           end]
     else []).
Proof.
  destruct (resume_fulfilled_shape now_ms prev curr s) as ((text & ->) & _).
  rewrite !published_app.
  destruct (classify prev _); simpl; now rewrite ?app_nil_r.
Qed.

Lemma resume_fulfilled_remote_calls
      (now_ms : Z) (prev curr : option TimerResponse) (s : Service) :
  remote_calls (trace (updateCurrentTimer_resume now_ms prev (Fulfilled curr) s))
  = remote_calls (trace s) ++
    (if changed (classify prev (drop_other_workspace (workspaceId s) curr))
     then [ReportsSummaryToday (settings_workspace_id s)]
     else []).
Proof.
  destruct (resume_fulfilled_shape now_ms prev curr s) as ((text & ->) & _).
  rewrite !remote_calls_app.
  destruct (classify prev _); simpl; now rewrite ?app_nil_r.
Qed.

(** Two passes in a row that fetch the same timer: the second one finds
    nothing changed. It publishes nothing to the timer store, requests no
    summary (its only remote call is its own fetch) and holds the same
    snapshot as the first. *)
Theorem repeated_poll_is_quiet
        (now1 now2 : Z) (curr : option TimerResponse) (s : Service) :
  _ApiAvailable s = AVAILABLE ->
  let s1 := poll_tick now1 (Fulfilled curr) s in
  let s2 := poll_tick now2 (Fulfilled curr) s1 in
  published (trace s2) = published (trace s1) /\
  remote_calls (trace s2) = remote_calls (trace s1) ++ [TimeEntriesCurrent] /\
  _currentTimeEntry s2 = _currentTimeEntry s1.
Proof.
  intros Hav. cbv zeta.
  rewrite (poll_tick_available now1 _ s Hav).
  set (s0 := log (Remote TimeEntriesCurrent) s).
  destruct (resume_fulfilled_shape now1 (_currentTimeEntry s) curr s0)
    as (_ & Hheld & _ & Hst & _ & _ & Hws & _).
  set (s1 := updateCurrentTimer_resume now1 (_currentTimeEntry s) (Fulfilled curr) s0) in *.
  assert (Hav1 : _ApiAvailable s1 = AVAILABLE) by (rewrite Hst; exact Hav).
  rewrite (poll_tick_available now2 _ s1 Hav1).
  assert (Hkind : classify (_currentTimeEntry s1)
                    (drop_other_workspace
                       (workspaceId (log (Remote TimeEntriesCurrent) s1)) curr)
                  = Unchanged).
  { rewrite Hheld. unfold workspaceId. cbn [log settings_workspace_id].
    rewrite Hws. apply classify_same. }
  rewrite resume_fulfilled_published, resume_fulfilled_remote_calls, Hkind.
  cbn [changed]. rewrite !app_nil_r.
  destruct (resume_fulfilled_shape now2 (_currentTimeEntry s1) curr
              (log (Remote TimeEntriesCurrent) s1)) as (_ & Hheld2 & _).
  rewrite Hheld2, Hheld. unfold workspaceId. cbn [log settings_workspace_id trace].
  rewrite Hws, published_app, remote_calls_app. simpl.
  now rewrite app_nil_r.
Qed.

Lemma repeated_poll_is_quiet_witness :
  published
    (trace (poll_tick 1700000160000 (Fulfilled (Some home_timer))
              (poll_tick 1700000100000 (Fulfilled (Some home_timer)) idle_service)))
  = published
      (trace (poll_tick 1700000100000 (Fulfilled (Some home_timer)) idle_service)).
Proof.
  apply (repeated_poll_is_quiet 1700000100000 1700000160000
           (Some home_timer) idle_service).
  reflexivity.
Defined.

(** Two passes that overlap: both start while no timer is held, and both
    fetches then deliver the same timer. Each pass compares with the
    snapshot it remembered when it started, so each one classifies the
    timer as started: the timer is published twice and the summary is
    requested twice. The same two fetches made by passes run one after the
    other publish it once. *)
Theorem overlapping_passes_publish_twice
        (now1 now2 : Z) (t : TimerResponse) (s : Service) :
  _ApiAvailable s = AVAILABLE ->
  _currentTimeEntry s = None ->
  drop_other_workspace (workspaceId s) (Some t) = Some t ->
  let first := updateCurrentTimer_call s in
  let second := updateCurrentTimer_call (fst first) in
  let overlapped :=
    updateCurrentTimer_resume now2 None (Fulfilled (Some t))
      (updateCurrentTimer_resume now1 None (Fulfilled (Some t)) (fst second)) in
  let in_turn :=
    poll_tick now2 (Fulfilled (Some t)) (poll_tick now1 (Fulfilled (Some t)) s) in
  snd first = Some None /\ snd second = Some None /\
  published (trace overlapped)
  = published (trace s) ++
    [Some (responseToTimeEntry s t); Some (responseToTimeEntry s t)] /\
  published (trace in_turn)
  = published (trace s) ++ [Some (responseToTimeEntry s t)] /\
  _currentTimeEntry overlapped = Some t /\
  _currentTimeEntry in_turn = Some t.
Proof.
  intros Hav Hheld Hkeep. cbv zeta.
  assert (Hcall : updateCurrentTimer_call s
                  = (log (Remote TimeEntriesCurrent) s, Some None)).
  { unfold updateCurrentTimer_call, isApiAvailable. now rewrite Hav, Hheld. }
  rewrite Hcall. cbn [fst snd].
  set (sa := log (Remote TimeEntriesCurrent) s).
  assert (Hcall2 : updateCurrentTimer_call sa
                   = (log (Remote TimeEntriesCurrent) sa, Some None)).
  { unfold updateCurrentTimer_call, isApiAvailable. subst sa.
    cbn [log _ApiAvailable _currentTimeEntry]. now rewrite Hav, Hheld. }
  rewrite Hcall2. cbn [fst snd].
  set (sb := log (Remote TimeEntriesCurrent) sa).
  split; [reflexivity|]. split; [reflexivity|].
  assert (Hws : forall x, _projects x = _projects s ->
                  settings_workspace_id x = settings_workspace_id s ->
                  published
                    (trace (updateCurrentTimer_resume now1 None (Fulfilled (Some t)) x))
                  = published (trace x) ++ [Some (responseToTimeEntry s t)]).
  { intros x Hp Hw. rewrite resume_fulfilled_published.
    unfold workspaceId in *. rewrite Hw, Hkeep. simpl.
    now rewrite (responseToTimeEntry_projects x s). }
  assert (Hws2 : forall prev x, _projects x = _projects s ->
                  settings_workspace_id x = settings_workspace_id s ->
                  published
                    (trace (updateCurrentTimer_resume now2 prev (Fulfilled (Some t)) x))
                  = published (trace x) ++
                    (if changed (classify prev (Some t))
                     then [Some (responseToTimeEntry s t)] else [])).
  { intros prev x Hp Hw. rewrite resume_fulfilled_published.
    unfold workspaceId in *. rewrite Hw, Hkeep.
    now rewrite (responseToTimeEntry_projects x s). }
  destruct (resume_fulfilled_shape now1 None (Some t) sb)
    as (_ & Hh1 & _ & Hst1 & _ & Hp1 & Hw1 & _).
  destruct (resume_fulfilled_shape now2 None (Some t)
              (updateCurrentTimer_resume now1 None (Fulfilled (Some t)) sb))
    as (_ & Hh2 & _).
  split.
  { rewrite Hws2 by (rewrite ?Hp1, ?Hw1; reflexivity).
    rewrite Hws by reflexivity. simpl.
    subst sb sa. cbn [log trace]. rewrite !published_app. simpl.
    rewrite !app_nil_r, <- app_assoc. reflexivity. }
  rewrite (poll_tick_available now1 _ s Hav), Hheld. fold sa.
  destruct (resume_fulfilled_shape now1 None (Some t) sa)
    as (_ & Hha & _ & Hsta & _ & Hpa & Hwa & _).
  set (s1 := updateCurrentTimer_resume now1 None (Fulfilled (Some t)) sa) in *.
  assert (Hav1 : _ApiAvailable s1 = AVAILABLE) by (rewrite Hsta; exact Hav).
  rewrite (poll_tick_available now2 _ s1 Hav1).
  assert (Hheld1 : _currentTimeEntry s1 = Some t).
  { rewrite Hha. unfold workspaceId. exact Hkeep. }
  destruct (resume_fulfilled_shape now2 (_currentTimeEntry s1) (Some t)
              (log (Remote TimeEntriesCurrent) s1)) as (_ & Hhb & _).
  split; [|split].
  - rewrite Hws2 by (cbn [log _projects settings_workspace_id]; assumption).
    rewrite Hheld1, classify_same. cbn [changed log trace].
    rewrite published_app. cbn [published]. rewrite !app_nil_r.
    subst s1. rewrite Hws by reflexivity.
    subst sa. cbn [log trace]. rewrite published_app. cbn [published].
    now rewrite app_nil_r.
  - rewrite Hh2. unfold workspaceId in *. rewrite Hw1. exact Hkeep.
  - rewrite Hhb. unfold workspaceId in *. cbn [log settings_workspace_id].
    rewrite Hwa. exact Hkeep.
Qed.

Lemma overlapping_passes_publish_twice_witness :
  published
    (trace
       (updateCurrentTimer_resume 1700000160000 None (Fulfilled (Some home_timer))
          (updateCurrentTimer_resume 1700000100000 None (Fulfilled (Some home_timer))
             (fst (updateCurrentTimer_call (fst (updateCurrentTimer_call idle_service)))))))
  = published (trace idle_service) ++
    [Some (responseToTimeEntry idle_service home_timer);
     Some (responseToTimeEntry idle_service home_timer)].
Proof.
  apply (overlapping_passes_publish_twice 1700000100000 1700000160000
           home_timer idle_service); reflexivity.
Defined.

(** While the API status is not [AVAILABLE] a pass does nothing at all: it
    issues no fetch and returns the service as it is, whatever the fetch
    would have delivered; the same holds for the pass that follows a
    successful stop request. *)
Theorem unavailable_pass_does_nothing
        (now_ms : Z) (fetch : settled (option TimerResponse)) (s : Service) :
  _ApiAvailable s <> AVAILABLE ->
  updateCurrentTimer_call s = (s, None) /\
  poll_tick now_ms fetch s = s /\
  stopTimer_then (Fulfilled tt) s = (s, None).
Proof.
  intros H. apply unavailable_not_available in H.
  unfold poll_tick, stopTimer_then, updateCurrentTimer_call.
  rewrite H. simpl. repeat split.
Qed.

Lemma unavailable_pass_does_nothing_witness :
  poll_tick 1700000100000 (Fulfilled (Some home_timer)) fresh_service
  = fresh_service.
Proof.
  apply (unavailable_pass_does_nothing 1700000100000
           (Fulfilled (Some home_timer)) fresh_service).
  discriminate.
Defined.

(** *** Commands and credentials *)

(** While the API status is not [AVAILABLE], [stopTimer] issues no remote
    call and leaves the held snapshot alone, whether or not a timer is
    held; any function given to [executeIfAPIAvailable] is not run. One
    notice is shown when the status is [NO_TOKEN] or [UNREACHABLE], a
    different one for each, and none when it is [UNTESTED]. *)
Theorem unavailable_command_only_notifies (s : Service) :
  _ApiAvailable s <> AVAILABLE ->
  (forall func, executeIfAPIAvailable func s = stopTimer s) /\
  remote_calls (trace (stopTimer s)) = remote_calls (trace s) /\
  _currentTimeEntry (stopTimer s) = _currentTimeEntry s /\
  _ApiAvailable (stopTimer s) = _ApiAvailable s /\
  trace (stopTimer s) =
    trace s ++
    match _ApiAvailable s with
    | NO_TOKEN => [NoticeShown "No Toggl Track API token is set."]
    | UNREACHABLE =>
        [NoticeShown "The Toggl Track API is unreachable. Either the Toggl services are down, or your API token is incorrect."]
    | _ => []
    end.
Proof.
  intros H. pose proof (unavailable_not_available s H) as Hn.
  unfold stopTimer, executeIfAPIAvailable. rewrite Hn.
  split; [reflexivity|].
  unfold noticeAPINotAvailable.
  destruct s as [pr iv te st ws cl nh tr]; cbn in *.
  destruct st; cbn; rewrite ?remote_calls_app, ?app_nil_r; cbn;
    rewrite ?app_nil_r; repeat split; congruence.
Qed.

Lemma unavailable_command_only_notifies_witness :
  remote_calls (trace (stopTimer fresh_service))
  = remote_calls (trace fresh_service).
Proof.
  apply (unavailable_command_only_notifies fresh_service). discriminate.
Defined.

(** [setToken] without a token, absent or empty, from any state: the
    status becomes [NO_TOKEN], the token notice is shown once, the status
    store is told, no remote call is made and no interval is started; the
    interval field still holds the handle that was just cleared; and a pass
    scheduled afterwards does nothing. *)
Theorem setToken_without_token
        (now_ms : Z) (fetch : settled (option TimerResponse)) (s : Service) :
  setToken (Some "") s = setToken None s /\
  let s' := setToken None s in
  _ApiAvailable s' = NO_TOKEN /\
  trace s' =
    trace s ++
    [ClearInterval (_currentTimerInterval s);
     StatusBarSetText "Open settings to add a Toggl API token.";
     NoticeShown "No Toggl Track API token is set.";
     ApiStatusStoreSet NO_TOKEN] /\
  _currentTimerInterval s' = _currentTimerInterval s /\
  _currentTimeEntry s' = _currentTimeEntry s /\
  poll_tick now_ms fetch s' = s'.
Proof.
  split; [reflexivity|]. cbv zeta.
  destruct s as [pr iv te st ws cl nh tr]. cbn.
  rewrite <- !app_assoc. repeat split.
Qed.

(** Setting a token again: whatever the second token is, the first thing
    the second [setToken] does is to clear the interval that the first one
    started, and if it starts a new interval the handle it stores is a
    different one. *)
Theorem setToken_again_clears_interval
        (c : ascii) (rest : string) (token : option string) (s : Service) :
  let s1 := setToken (Some (String c rest)) s in
  let s2 := setToken token s1 in
  _currentTimerInterval s1 = Some (next_handle s) /\
  (exists later,
     trace s2 = trace s1 ++ ClearInterval (Some (next_handle s)) :: later) /\
  (_ApiAvailable s2 = AVAILABLE ->
   _currentTimerInterval s2 = Some (S (next_handle s))).
Proof.
  cbv zeta. destruct s as [pr iv te st ws cl nh tr].
  split; [reflexivity|].
  destruct token as [[|c2 r2]|]; cbn; (split; [|intros; congruence || reflexivity]);
    eexists; rewrite <- !app_assoc; cbn;
    repeat (rewrite <- app_assoc; cbn); reflexivity.
Qed.

(** Stopping a held timer, start to end. With the API available and an
    entry held, [stopTimer] issues the stop request for that entry; when
    the request succeeds a pass starts that remembers the entry; if its
    fetch then delivers no timer, [null] is published to the timer store,
    the summary is requested, nothing is held any more and the status bar
    reads "Timer: -". If the stop request fails no pass is started and the
    entry stays held. *)
Theorem stop_then_poll_clears_timer
        (now_ms : Z) (e : TimerResponse) (reason : string) (s : Service) :
  _ApiAvailable s = AVAILABLE ->
  _currentTimeEntry s = Some e ->
  let stopped := stopTimer s in
  let pass := stopTimer_then (Fulfilled tt) stopped in
  let s' := updateCurrentTimer_resume now_ms (Some e) (Fulfilled None) (fst pass) in
  snd pass = Some (Some e) /\
  trace s' =
    trace s ++
    [Remote (TimeEntriesStop (id e));
     Remote TimeEntriesCurrent;
     ConsoleDebug "Case 4: active timer -> no timer";
     CurrentTimerSet None;
     Remote (ReportsSummaryToday (settings_workspace_id s));
     StatusBarSetText "Timer: -"] /\
  _currentTimeEntry s' = None /\
  snd (stopTimer_then (Rejected reason) stopped) = None /\
  _currentTimeEntry (fst (stopTimer_then (Rejected reason) stopped)) = Some e.
Proof.
  intros Hav Hheld. cbv zeta.
  destruct s as [pr iv te st ws cl nh tr]. cbn in Hav, Hheld. subst.
  cbn. rewrite <- !app_assoc. repeat split.
Qed.

Lemma stop_then_poll_clears_timer_witness :
  _currentTimeEntry
    (updateCurrentTimer_resume 1700000100000 (Some home_timer) (Fulfilled None)
       (fst (stopTimer_then (Fulfilled tt)
               (stopTimer (set_currentTimeEntry (Some home_timer) idle_service)))))
  = None.
Proof.
  apply (stop_then_poll_clears_timer 1700000100000 home_timer "503"
           (set_currentTimeEntry (Some home_timer) idle_service));
    reflexivity.
Defined.

End PassFacts.

(** ** What the service shows and publishes *)

Section DisplayFacts.
Import TogglService.

Lemma string_length_append (a b : string) :
  String.length (a ++ b) = (String.length a + String.length b)%nat.
Proof. induction a as [|c a IH]; simpl; [reflexivity | now rewrite IH]. Qed.

Lemma string_length_substring0 (n : nat) (s : string) :
  String.length (substring 0 n s) = Nat.min n (String.length s).
Proof.
  revert s; induction n as [|n IH]; intros s; destruct s as [|c s]; simpl;
    try reflexivity.
  now rewrite IH.
Qed.

Lemma prefix_substring0 (n : nat) (s : string) :
  prefix (substring 0 n s) s = true.
Proof.
  revert s; induction n as [|n IH]; intros [|c r]; simpl; try reflexivity.
  rewrite IH. now destruct (ascii_dec c c).
Qed.

Lemma slice0_length (s : string) (e : Z) :
  0 <= e <= Z.of_nat (String.length s) ->
  Z.of_nat (String.length (slice0 s e)) = e.
Proof.
  intros H. unfold slice0.
  destruct (Z.ltb_spec e 0) as [C|_]; [lia|].
  rewrite string_length_substring0, Z.min_l by lia. lia.
Qed.

Lemma ascii_only_append (a b : string) :
  ascii_only (a ++ b) = ascii_only a && ascii_only b.
Proof.
  induction a as [|c a IH]; simpl; [reflexivity|].
  destruct c. now rewrite IH, andb_assoc.
Qed.

Lemma ascii_only_substring0 (n : nat) (s : string) :
  ascii_only s = true -> ascii_only (substring 0 n s) = true.
Proof.
  revert s; induction n as [|n IH]; intros [|c r]; simpl; try reflexivity.
  destruct c. intros H. apply andb_true_iff in H as [H1 H2].
  now rewrite H1, IH.
Qed.

(** With a character limit of at least 3, a timer held and a description
    made of ASCII characters, the status bar reads
    "Timer: <title> (<time>)" where the title is ASCII and never exceeds
    the limit: a description (or the text "No description" standing in for
    a missing or empty one) that fits is shown as it is, and a longer one
    is cut down to exactly the limit, its last three characters being
    "...". *)
Theorem status_bar_title_fits (now_ms : Z) (e : TimerResponse) (s : Service) :
  _currentTimeEntry s = Some e ->
  3 <= settings_charLimitStatusBar s ->
  ascii_only (or_string (description e) "No description") = true ->
  let full := or_string (description e) "No description" in
  exists title time_string,
    trace (updateStatusBarText now_ms s)
    = trace s ++
      [StatusBarSetText ("Timer: " ++ title ++ " (" ++ time_string ++ ")")] /\
    ascii_only title = true /\
    Z.of_nat (String.length title) <= settings_charLimitStatusBar s /\
    (Z.of_nat (String.length full) <= settings_charLimitStatusBar s ->
     title = full) /\
    (settings_charLimitStatusBar s < Z.of_nat (String.length full) ->
     Z.of_nat (String.length title) = settings_charLimitStatusBar s /\
     exists head, title = (head ++ "...")%string /\ prefix head full = true).
Proof.
  intros Hheld Hlimit Hascii. cbv zeta.
  unfold updateStatusBarText. rewrite Hheld.
  set (full := or_string (description e) "No description") in *.
  set (limit := settings_charLimitStatusBar s) in *.
  eexists _, _. split; [reflexivity|].
  rewrite Z.gtb_ltb.
  destruct (Z.ltb_spec limit (Z.of_nat (String.length full))) as [Hlong|Hfits].
  - assert (Hlen : Z.of_nat (String.length (slice0 full (limit - 3))) = limit - 3)
      by (apply slice0_length; lia).
    assert (Htot : Z.of_nat (String.length (slice0 full (limit - 3) ++ "..."))
                   = limit).
    { rewrite string_length_append. simpl String.length. lia. }
    split.
    { rewrite ascii_only_append. unfold slice0.
      rewrite ascii_only_substring0 by exact Hascii. reflexivity. }
    split; [lia|]. split; [lia|]. intros _. split; [exact Htot|].
    exists (slice0 full (limit - 3)). split; [reflexivity|].
    apply prefix_substring0.
  - split; [exact Hascii|]. split; [lia|]. split; [reflexivity | lia].
Qed.

Lemma status_bar_title_fits_witness :
  exists title time_string,
    trace (updateStatusBarText 1700000100000
             (set_currentTimeEntry (Some home_timer) idle_service))
    = trace (set_currentTimeEntry (Some home_timer) idle_service) ++
      [StatusBarSetText ("Timer: " ++ title ++ " (" ++ time_string ++ ")")] /\
    Z.of_nat (String.length title) <= 30.
Proof.
  destruct (status_bar_title_fits 1700000100000 home_timer
              (set_currentTimeEntry (Some home_timer) idle_service)
              eq_refl ltac:(simpl; lia) eq_refl)
    as (title & time_string & H1 & _ & H2 & _).
  exists title, time_string. split; [exact H1 | exact H2].
Defined.

(** The duration of the held timer never runs backwards with the clock: a
    later clock reading gives a duration that is not smaller. Advancing the
    clock by [k] whole seconds advances the duration of a running entry by
    exactly [k] and leaves that of a stopped entry as it is. *)
Theorem getTimerDuration_follows_clock (now1 now2 : Z) (e : TimerResponse) :
  now1 <= now2 ->
  getTimerDuration now1 e <= getTimerDuration now2 e /\
  (forall k,
     getTimerDuration (now1 + 1000 * k) e
     = getTimerDuration now1 e + (if truthy_string (stop e) then 0 else k)).
Proof.
  intros H. unfold getTimerDuration, round_div_1000.
  destruct (truthy_string (stop e)).
  - split; [lia | intros; lia].
  - split.
    + apply Z.add_le_mono_r. apply Z.div_le_mono; lia.
    + intros k.
      replace (now1 + 1000 * k + 500) with (now1 + 500 + k * 1000) by lia.
      rewrite Z.div_add by lia. lia.
Qed.

Lemma getTimerDuration_follows_clock_witness :
  getTimerDuration 1700000100000 home_timer
  <= getTimerDuration 1700000160000 home_timer.
Proof.
  apply (getTimerDuration_follows_clock 1700000100000 1700000160000 home_timer).
  lia.
Defined.

Lemma find_project_by_id (l : list Project) (q : Project) :
  NoDup (map p_id l) -> In q l ->
  find (fun p => p_id p =? p_id q) l = Some q.
Proof.
  induction l as [|x l IH]; simpl; [tauto|].
  intros Hn Hin. inversion Hn as [|? ? Hx Hl]; subst.
  destruct Hin as [->|Hin]; [now rewrite Z.eqb_refl|].
  destruct (Z.eqb_spec (p_id x) (p_id q)) as [E|_]; [|now apply IH].
  exfalso. apply Hx. rewrite E. now apply in_map.
Qed.

(** When the cached projects have pairwise distinct ids and one of them is
    the project of the fetched timer, the published entry carries that
    project's name and colour, and the id, description, duration, start and
    tags of the response. *)
Theorem responseToTimeEntry_known_project
        (s : Service) (response : TimerResponse) (q : Project) :
  NoDup (map p_id (cachedProjects s)) ->
  In q (cachedProjects s) ->
  pid response = Some (p_id q) ->
  let entry := responseToTimeEntry s response in
  TimeEntry.project entry = p_name q /\
  TimeEntry.project_hex_color entry = p_hex_color q /\
  TimeEntry.pid entry = Some (p_id q) /\
  TimeEntry.id entry = id response /\
  TimeEntry.description entry = description response /\
  TimeEntry.duration entry = duration response /\
  TimeEntry.start entry = start response /\
  TimeEntry.tags entry = tags response.
Proof.
  intros Hn Hin Hp. cbv zeta. unfold responseToTimeEntry.
  rewrite Hp. cbn [loose_eq].
  rewrite (find_project_by_id _ q Hn Hin). cbn. repeat split. 
Qed.

Lemma responseToTimeEntry_known_project_witness :
  TimeEntry.project
    (responseToTimeEntry
       (set_projects [mkProject "Thesis" 3 "#06aaf5"] idle_service) home_timer)
  = "Thesis".
Proof.
  apply (responseToTimeEntry_known_project
           (set_projects [mkProject "Thesis" 3 "#06aaf5"] idle_service)
           home_timer (mkProject "Thesis" 3 "#06aaf5")).
  - repeat constructor. simpl. tauto.
  - now left.
  - reflexivity.
Defined.

(** When no cached project has the pid of the fetched timer, in particular
    before the projects are loaded or when the timer has no project, the
    published entry has the muted colour and is named "(No project)" if
    the timer has no pid and "(Unknown)" if it has one. *)
Theorem responseToTimeEntry_unknown_project
        (s : Service) (response : TimerResponse) :
  (forall q, In q (cachedProjects s) -> pid response <> Some (p_id q)) ->
  TimeEntry.project_hex_color (responseToTimeEntry s response)
  = "var(--text-muted)" /\
  TimeEntry.project (responseToTimeEntry s response)
  = match pid response with
    | Some _ => "(Unknown)"
    | None => "(No project)"
    end.
Proof.
  intros H. unfold responseToTimeEntry.
  assert (Hf : find (fun p => loose_eq Z.eqb (Some (p_id p)) (pid response))
                    (cachedProjects s) = None).
  { induction (cachedProjects s) as [|x l IH]; cbn [find]; [reflexivity|].
    destruct (loose_eq Z.eqb (Some (p_id x)) (pid response)) eqn:E.
    - exfalso. apply (H x); [now left|].
      destruct (pid response) as [n|]; simpl in E; [|discriminate].
      apply Z.eqb_eq in E. now subst.
    - apply IH. intros q Hq. apply H. now right. }
  rewrite Hf. cbn. split; [reflexivity|]. now destruct (pid response).
Qed.

Lemma responseToTimeEntry_unknown_project_witness :
  TimeEntry.project (responseToTimeEntry idle_service home_timer) = "(Unknown)".
Proof.
  apply (responseToTimeEntry_unknown_project idle_service home_timer).
  intros q [].
Defined.

Lemma find_project_number (l : list Project) (q : Project) :
  NoDup (map p_id l) -> In q l ->
  find_project l (PidNumber (p_id q)) = Some q.
Proof. apply find_project_by_id. Qed.

(** When the preloaded projects arrive they are cached in every case. The
    update of the timer store throws exactly when the store holds an entry
    whose pid is not [undefined] and is the id of none of the projects
    received (a [null] pid included); the store then keeps the entry it
    had. *)
Theorem preload_throws_iff_project_missing
        {Rest : Type} (response : list Project)
        (store : option (StoreEntry Rest)) (s : Service) :
  cachedProjects (fst (preload_projects_then response store s)) = response /\
  (preload_update response store = None <->
   exists e, store = Some e /\ se_pid e <> PidUndefined /\
             forall p, In p response -> se_pid e <> PidNumber (p_id p)) /\
  (preload_update response store = None ->
   snd (preload_projects_then response store s) = store).
Proof.
  split; [|split].
  - unfold preload_projects_then. destruct (preload_update response store);
      reflexivity.
  - assert (Hfind : forall pid,
              find_project response pid = None <->
              forall p, In p response -> pid <> PidNumber (p_id p)).
    { intros pid. unfold find_project. induction response as [|x l IH]; simpl.
      - split; [intros _ p [] | reflexivity].
      - destruct pid as [| |n].
        + simpl in IH. rewrite IH. split; intros; discriminate.
        + simpl in IH. rewrite IH. split; intros; discriminate.
        + destruct (Z.eqb_spec (p_id x) n) as [E|E].
          * split; [discriminate|]. intros H. exfalso.
            apply (H x); [now left | now rewrite E].
          * rewrite IH. split.
            -- intros H p [<-|Hp]; [congruence | now apply H].
            -- intros H p Hp. apply H. now right. }
    unfold preload_update. destruct store as [e|].
    + destruct (se_pid e) eqn:Hpid.
      * split; [discriminate | intros (e' & [= <-] & Hne & _); congruence].
      * specialize (Hfind PidNull).
        destruct (find_project response PidNull) eqn:F.
        -- split; [discriminate|]. intros (e' & [= <-] & _ & Hall).
           rewrite Hpid in Hall. apply Hfind in Hall. discriminate.
        -- split; [|reflexivity]. intros _. exists e.
           rewrite Hpid. repeat split; [discriminate | now apply Hfind].
      * specialize (Hfind (PidNumber n)).
        destruct (find_project response (PidNumber n)) eqn:F.
        -- split; [discriminate|]. intros (e' & [= <-] & _ & Hall).
           rewrite Hpid in Hall. apply Hfind in Hall. discriminate.
        -- split; [|reflexivity]. intros _. exists e.
           rewrite Hpid. repeat split; [discriminate | now apply Hfind].
    + split; [discriminate | intros (e & [=] & _)].
  - intros H. unfold preload_projects_then. now rewrite H.
Qed.

(** When the store holds an entry whose pid is the id of one of the
    projects received, and those have pairwise distinct ids, the update
    writes that project's name and colour into the entry and leaves its
    other fields as they were; an absent entry and an entry without pid are
    left as they are. *)
Theorem preload_fills_project
        {Rest : Type} (response : list Project) (e : StoreEntry Rest)
        (q : Project) (s : Service) :
  NoDup (map p_id response) ->
  In q response ->
  se_pid e = PidNumber (p_id q) ->
  preload_projects_then response (Some e) s
  = (set_projects response s,
     Some (mkStoreEntry (PidNumber (p_id q)) (p_name q) (p_hex_color q) (se_rest e))) /\
  preload_projects_then response (@None (StoreEntry Rest)) s
  = (set_projects response s, None) /\
  (forall project color rest,
     preload_projects_then response
       (Some (mkStoreEntry PidUndefined project color rest)) s
     = (set_projects response s,
        Some (mkStoreEntry PidUndefined project color (rest : Rest)))).
Proof.
  intros Hn Hin Hp. split; [|split; [reflexivity | reflexivity]].
  unfold preload_projects_then, preload_update. rewrite Hp.
  now rewrite (find_project_number _ q Hn Hin).
Qed.

Lemma preload_fills_project_witness :
  preload_projects_then [mkProject "Thesis" 3 "#06aaf5"]
    (Some (mkStoreEntry (PidNumber 3) "(Unknown)" "var(--text-muted)" tt))
    idle_service
  = (set_projects [mkProject "Thesis" 3 "#06aaf5"] idle_service,
     Some (mkStoreEntry (PidNumber 3) "Thesis" "#06aaf5" tt)).
Proof.
  apply (preload_fills_project [mkProject "Thesis" 3 "#06aaf5"]
           (mkStoreEntry (PidNumber 3) "(Unknown)" "var(--text-muted)" tt)
           (mkProject "Thesis" 3 "#06aaf5") idle_service).
  - repeat constructor. simpl. tauto.
  - now left.
  - reflexivity.
Defined.

End DisplayFacts.

(** ** Tag lists *)

Section TagFacts.
Import TogglService.

(** When the previous tag list holds no tag twice and the comparison finds
    nothing changed, the two lists hold exactly the same tags, the current
    list holds no tag twice either, and the comparison in the other
    direction finds nothing changed as well. *)
Theorem isTagsChanged_without_duplicates (old_tags new_tags : list string) :
  NoDup old_tags ->
  isTagsChanged (Some old_tags) (Some new_tags) = false ->
  (forall tag, In tag old_tags <-> In tag new_tags) /\
  NoDup new_tags /\
  isTagsChanged (Some new_tags) (Some old_tags) = false.
Proof.
  intros Hn H. apply isTagsChanged_false in H as [Hlen Hincl]. simpl in *.
  assert (Hback : incl new_tags old_tags).
  { apply NoDup_length_incl; [exact Hn | lia | exact Hincl]. }
  split; [|split].
  - intros tag. split; [apply Hincl | apply Hback].
  - apply (NoDup_incl_NoDup Hn); [lia | exact Hincl].
  - apply isTagsChanged_false. split; [now symmetry | exact Hback].
Qed.

Lemma isTagsChanged_without_duplicates_witness :
  isTagsChanged (Some ["b"; "a"]) (Some ["a"; "b"]) = false.
Proof.
  apply (isTagsChanged_without_duplicates ["a"; "b"] ["b"; "a"]).
  - repeat constructor; simpl; intuition discriminate.
  - reflexivity.
Defined.

End TagFacts.
